(** * The restricted YAML reader of [scripts/airgradient.py]

    A shallow embedding of [parse_value] and [parse_yaml] (with its local
    class [Frame] and its local function [finalize]), followed by the
    properties of the reader.

    Conventions of the embedding.
    - A Python [str] is a [string]; a character is a code point below 256,
      so the white space and the line boundaries of [str.strip] and
      [str.splitlines] are the ones Python has in that range.
    - Python objects that the reader mutates ([dict] and [list]) live in a
      store; a value refers to them by location, as a Python reference
      does, so the containers held by the frames alias the tree under
      construction.
    - An exception is an [error]; code that may raise returns a [result].
    - [int] and [float] are modelled by the literals they accept; a float
      is kept as its literal.  The interpreter's limits (recursion depth,
      digits of an [int] literal) are not modelled. *)

From Stdlib Require Import ZArith Ascii String List Bool Lia.
From stdpp Require Import base list.
Import ListNotations.

Local Open Scope string_scope.
Local Open Scope list_scope.
Local Open Scope nat_scope.

(** ** Characters and strings *)

Module Str.

Definition code (c : ascii) : N := N_of_ascii c.

Definition LF : ascii := ascii_of_nat 10.
Definition CR : ascii := ascii_of_nat 13.
Definition DQUOTE : ascii := ascii_of_nat 34.

(** [str.isspace] on one character: the white space [str.strip] removes. *)
Definition is_space (c : ascii) : bool :=
  let n := code c in
  ((9 <=? n) && (n <=? 13) || (28 <=? n) && (n <=? 32)
   || (n =? 133) || (n =? 160))%N.

(** The line boundaries of [str.splitlines]. *)
Definition is_linebreak (c : ascii) : bool :=
  let n := code c in
  ((10 <=? n) && (n <=? 13) || (28 <=? n) && (n <=? 30) || (n =? 133))%N.

Definition is_digit (c : ascii) : bool :=
  let n := code c in ((48 <=? n) && (n <=? 57))%N.

Definition digit_val (c : ascii) : Z := Z.of_N (code c) - 48.

(** [str.lower] on one character. *)
Definition lower_char (c : ascii) : ascii :=
  let n := code c in
  if ((65 <=? n) && (n <=? 90)
      || (192 <=? n) && (n <=? 222) && negb (n =? 215))%N
  then ascii_of_N (n + 32) else c.

Fixpoint lower (s : string) : string :=
  match s with
  | EmptyString => EmptyString
  | String c r => String (lower_char c) (lower r)
  end.

Definition is_empty (s : string) : bool :=
  match s with EmptyString => true | _ => false end.

(** [s.lstrip()] *)
Fixpoint lstrip (s : string) : string :=
  match s with
  | String c r => if is_space c then lstrip r else s
  | EmptyString => EmptyString
  end.

(** [s.rstrip()] *)
Fixpoint rstrip (s : string) : string :=
  match s with
  | EmptyString => EmptyString
  | String c r =>
      let r' := rstrip r in
      if is_empty r' && is_space c then EmptyString else String c r'
  end.

(** [s.strip()] *)
Definition strip (s : string) : string := rstrip (lstrip s).

(** [s.lstrip(ch)] and [s.rstrip(ch)] for a one-character set. *)
Fixpoint lstrip_char (ch : ascii) (s : string) : string :=
  match s with
  | String c r => if Ascii.eqb c ch then lstrip_char ch r else s
  | EmptyString => EmptyString
  end.

Fixpoint rstrip_char (ch : ascii) (s : string) : string :=
  match s with
  | EmptyString => EmptyString
  | String c r =>
      let r' := rstrip_char ch r in
      if is_empty r' && Ascii.eqb c ch then EmptyString else String c r'
  end.

(** [ch in s] *)
Fixpoint contains (ch : ascii) (s : string) : bool :=
  match s with
  | EmptyString => false
  | String c r => Ascii.eqb c ch || contains ch r
  end.

(** [s.split(ch, 1)]: the text before the first [ch] and the text after
    it; without a [ch] the whole of [s] and nothing. *)
Fixpoint split1 (ch : ascii) (s : string) : string * option string :=
  match s with
  | EmptyString => (EmptyString, None)
  | String c r =>
      if Ascii.eqb c ch then (EmptyString, Some r)
      else let '(a, b) := split1 ch r in (String c a, b)
  end.

Definition startswith (p s : string) : bool := String.prefix p s.

Fixpoint last_char (s : string) : option ascii :=
  match s with
  | EmptyString => None
  | String c EmptyString => Some c
  | String _ r => last_char r
  end.

(** [s.endswith(ch)] for a one-character [ch]. *)
Definition endswith_char (ch : ascii) (s : string) : bool :=
  match last_char s with
  | Some c => Ascii.eqb c ch
  | None => false
  end.

(** [s[n:]] *)
Fixpoint drop (n : nat) (s : string) : string :=
  match n, s with
  | O, _ => s
  | S n', String _ r => drop n' r
  | S _, EmptyString => EmptyString
  end.

(** [s[:-1]] *)
Fixpoint drop_last (s : string) : string :=
  match s with
  | EmptyString => EmptyString
  | String _ EmptyString => EmptyString
  | String c r => String c (drop_last r)
  end.

(** [s[1:-1]] *)
Definition slice_1_m1 (s : string) : string := drop_last (drop 1 s).

(** [text.splitlines()]: [cur] is the line being read, [after_cr] tells
    that the previous character was a carriage return, which a line feed
    then completes. *)
Fixpoint splitlines_aux (cur : string) (after_cr : bool) (s : string)
  : list string :=
  match s with
  | EmptyString => if is_empty cur then [] else [cur]
  | String c r =>
      if after_cr && Ascii.eqb c LF then splitlines_aux EmptyString false r
      else if is_linebreak c
           then cur :: splitlines_aux EmptyString (Ascii.eqb c CR) r
           else splitlines_aux (cur ++ String c EmptyString) false r
  end.

Definition splitlines (s : string) : list string :=
  splitlines_aux EmptyString false s.

End Str.

(** ** Exceptions *)

Inductive error : Type :=
| InvalidIndentation (raw_line : string)     (* "Invalid indentation: ..." *)
| InvalidIndentStructure                     (* "Invalid indentation structure" *)
| InvalidIndentLevel (raw_line : string)     (* "Invalid indentation level: ..." *)
| MissingKeyForNested (raw_line : string)    (* "Missing key for nested mapping: ..." *)
| ListHasNoItem (raw_line : string)          (* "List has no item to extend: ..." *)
| UnsupportedContainer (raw_line : string)   (* "Unsupported container at indent: ..." *)
| ListItemWithoutKey (raw_line : string)     (* "List item without key: ..." *)
| ExpectedList (raw_line : string)           (* "Expected list for item: ..." *)
| MissingColon (raw_line : string)           (* "Invalid line (missing ':'): ..." *)
| InvalidLiteral (raw : string)              (* ValueError of int() and float() *)
| KeyError (key : string)                    (* d[k] with k absent *)
| TypeError                                  (* x[k] = v on an x that is no dict *)
| DepthExceeded.                             (* finalize deeper than its bound *)

(** The errors above that are Python's [ValueError]. *)
Definition is_ValueError (e : error) : bool :=
  match e with
  | KeyError _ | TypeError | DepthExceeded => false
  | _ => true
  end.

Inductive result (A : Type) : Type :=
| OK (a : A)
| Err (e : error).
Arguments OK {A} a.
Arguments Err {A} e.

Definition bind {A B} (m : result A) (k : A -> result B) : result B :=
  match m with
  | OK a => k a
  | Err e => Err e
  end.

Notation "'do' x <- m ; k" := (bind m (fun x => k))
  (at level 10, x name, m at level 100, k at level 200).
Notation "'do' ' p <- m ; k" := (bind m (fun x => match x with p => k end))
  (at level 10, p pattern, m at level 100, k at level 200).

(** [try: m  except ValueError: h] *)
Definition try_except_ValueError {A} (m : result A) (h : result A)
  : result A :=
  match m with
  | OK a => OK a
  | Err e => if is_ValueError e then h else Err e
  end.

(** ** Values *)

Abbreviation loc := nat.

(** What a variable, a dict slot or a list slot can hold.  [VFloat lit] is
    the float that [float(lit)] returns: the literal is kept, its rounding
    to a binary64 is not modelled. *)
Inductive value : Type :=
| VStr (s : string)
| VBool (b : bool)
| VNone
| VInt (n : Z)
| VFloat (lit : string)
| PENDING
| VRef (l : loc).

(** ** parse_value *)

(** [int(raw)]: optional sign, then digits, single underscores allowed
    between digits; surrounding white space is ignored. *)
Fixpoint int_body (acc : Z) (after_digit : bool) (s : string) : option Z :=
  match s with
  | EmptyString => if after_digit then Some acc else None
  | String c r =>
      if Str.is_digit c then int_body (10 * acc + Str.digit_val c) true r
      else if Ascii.eqb c "_" then
             if after_digit then int_body acc false r else None
           else None
  end.

Definition py_int (raw : string) : result Z :=
  let s := Str.strip raw in
  let parsed :=
    match s with
    | String "-" r => option_map Z.opp (int_body 0 false r)
    | String "+" r => int_body 0 false r
    | _ => int_body 0 false s
    end in
  match parsed with
  | Some n => OK n
  | None => Err (InvalidLiteral raw)
  end.

(** Underscores in a float literal: each one stands between two digits. *)
Fixpoint underscores_ok (prev : option ascii) (s : string) : bool :=
  match s with
  | EmptyString =>
      match prev with Some c => negb (Ascii.eqb c "_") | None => true end
  | String c r =>
      let prev_digit :=
        match prev with Some p => Str.is_digit p | None => false end in
      let prev_us :=
        match prev with Some p => Ascii.eqb p "_" | None => false end in
      if Ascii.eqb c "_"
      then prev_digit && underscores_ok (Some c) r
      else negb (prev_us && negb (Str.is_digit c))
           && underscores_ok (Some c) r
  end.

Fixpoint remove_underscores (s : string) : string :=
  match s with
  | EmptyString => EmptyString
  | String c r =>
      if Ascii.eqb c "_" then remove_underscores r
      else String c (remove_underscores r)
  end.

(** The leading digits of [s]: how many, and what follows them. *)
Fixpoint skip_digits (s : string) : nat * string :=
  match s with
  | String c r =>
      if Str.is_digit c
      then let '(n, t) := skip_digits r in (S n, t)
      else (O, s)
  | EmptyString => (O, EmptyString)
  end.

Definition skip_sign (s : string) : string :=
  match s with
  | String "-" r => r
  | String "+" r => r
  | _ => s
  end.

(** The literals [float] accepts, once underscores are removed. *)
Definition float_syntax (s : string) : bool :=
  let s1 := skip_sign s in
  let w := Str.lower s1 in
  if String.eqb w "inf" || String.eqb w "infinity" || String.eqb w "nan"
  then true
  else
    let '(n1, r1) := skip_digits s1 in
    let '(n2, r2) :=
      match r1 with
      | String "." t => skip_digits t
      | _ => (O, r1)
      end in
    if Nat.eqb (n1 + n2) 0 then false
    else match r2 with
         | EmptyString => true
         | String e r3 =>
             if Ascii.eqb e "e" || Ascii.eqb e "E"
             then let '(n3, r4) := skip_digits (skip_sign r3) in
                  negb (Nat.eqb n3 0) && Str.is_empty r4
             else false
         end.

Definition py_float (raw : string) : result value :=
  let s := Str.strip raw in
  if underscores_ok None s && float_syntax (remove_underscores s)
  then OK (VFloat raw)
  else Err (InvalidLiteral raw).

Definition quoted_by (q : ascii) (raw : string) : bool :=
  Str.startswith (String q EmptyString) raw && Str.endswith_char q raw.

Definition parse_value (raw : string) : result value :=
  if quoted_by Str.DQUOTE raw then OK (VStr (Str.slice_1_m1 raw))
  else if quoted_by "'" raw then OK (VStr (Str.slice_1_m1 raw))
  else
    let lower := Str.lower raw in
    if String.eqb lower "true" || String.eqb lower "false"
    then OK (VBool (String.eqb lower "true"))
    else if String.eqb lower "null" || String.eqb lower "none"
    then OK VNone
    else
      try_except_ValueError
        (if Str.contains "." raw
         then py_float raw
         else do n <- py_int raw; OK (VInt n))
        (OK (VStr raw)).

(** ** The store: dicts and lists under construction *)

(** A Python [dict] with [str] keys: insertion-ordered, keys unique. *)
Definition dict := list (string * value).

Fixpoint dict_get (k : string) (d : dict) : option value :=
  match d with
  | [] => None
  | (k', v) :: d' => if String.eqb k' k then Some v else dict_get k d'
  end.

(** [d[k] = v]: an existing key keeps its place, a new one goes last. *)
Fixpoint dict_set (k : string) (v : value) (d : dict) : dict :=
  match d with
  | [] => [(k, v)]
  | (k', v') :: d' =>
      if String.eqb k' k then (k', v) :: d' else (k', v') :: dict_set k v d'
  end.

Inductive object : Type :=
| ODict (d : dict)
| OList (xs : list value).

(** The store: the object at location [l] is the [l]-th allocated. *)
Abbreviation store := (list object).

(** [isinstance(c, dict)], with the dict's content. *)
Definition dict_at (h : store) (c : value) : option dict :=
  match c with
  | VRef l => match h !! l with Some (ODict d) => Some d | _ => None end
  | _ => None
  end.

(** [isinstance(c, list)], with the list's content. *)
Definition list_at (h : store) (c : value) : option (list value) :=
  match c with
  | VRef l => match h !! l with Some (OList xs) => Some xs | _ => None end
  | _ => None
  end.

(** A new object: [{}], [[]] or [{key: v}]. *)
Definition alloc (h : store) (o : object) : store * value :=
  (h ++ [o], VRef (length h)).

(** [c[k] = v] *)
Definition setitem (h : store) (c : value) (k : string) (v : value)
  : result store :=
  match c with
  | VRef l =>
      match h !! l with
      | Some (ODict d) => OK (<[l := ODict (dict_set k v d)]> h)
      | _ => Err TypeError
      end
  | _ => Err TypeError
  end.

(** [c[k]] on a dict [c] *)
Definition getitem (h : store) (c : value) (k : string) : result value :=
  match dict_at h c with
  | Some d =>
      match dict_get k d with
      | Some v => OK v
      | None => Err (KeyError k)
      end
  | None => Err TypeError
  end.

(** [c.get(k, None) is PENDING] on a dict content *)
Definition get_is_PENDING (d : dict) (k : string) : bool :=
  match dict_get k d with
  | Some PENDING => true
  | _ => false
  end.

Definition is_PENDING (v : value) : bool :=
  match v with PENDING => true | _ => false end.

(** [c.append(v)] on a list [c] *)
Definition append (h : store) (c : value) (v : value) : result store :=
  match c with
  | VRef l =>
      match h !! l with
      | Some (OList xs) => OK (<[l := OList (xs ++ [v])]> h)
      | _ => Err TypeError
      end
  | _ => Err TypeError
  end.

(** [c[-1] = v] on a non-empty list [c] *)
Definition set_last (h : store) (c : value) (v : value) : result store :=
  match c with
  | VRef l =>
      match h !! l with
      | Some (OList xs) => OK (<[l := OList (removelast xs ++ [v])]> h)
      | _ => Err TypeError
      end
  | _ => Err TypeError
  end.

(** ** Frames and the parser state *)

Record Frame : Type := mkFrame {
  indent : nat;
  container : value;
  last_key : option string
}.

(** [frame.last_key = key] *)
Definition set_last_key (f : Frame) (key : string) : Frame :=
  mkFrame (indent f) (container f) (Some key).

(** The variables of the loop of [parse_yaml]: the store that holds [root]
    (at location 0) and all it reaches, and [frames], innermost frame
    first (Python's [frames[-1]] is the head). *)
Record state : Type := mkState {
  heap : store;
  frames : list Frame
}.

Definition root : value := VRef 0.

Definition initial : state :=
  mkState [ODict []] [mkFrame 0 root None].

(** [while frames and indent < frames[-1].indent: frames.pop()] *)
Fixpoint pop_frames (ind : nat) (fs : list Frame) : list Frame :=
  match fs with
  | f :: fs' => if ind <? indent f then pop_frames ind fs' else fs
  | [] => []
  end.

Definition is_item (stripped : string) : bool :=
  Str.startswith "- " stripped.

(** The body of [if indent > frame.indent:]: the frame to push. *)
Definition enter_block (h : store) (frame : Frame) (ind : nat)
    (stripped raw_line : string) : result (store * Frame) :=
  if negb (ind =? indent frame + 2) then Err (InvalidIndentLevel raw_line)
  else
    do '(h1, new_container) <-
      match dict_at h (container frame), list_at h (container frame) with
      | Some d, _ =>
          match last_key frame with
          | None => Err (MissingKeyForNested raw_line)
          | Some k =>
              do h1 <-
                (if get_is_PENDING d k then
                   let '(h0, fresh) :=
                     alloc h (if is_item stripped then OList [] else ODict [])
                   in setitem h0 (container frame) k fresh
                 else OK h);
              do v <- getitem h1 (container frame) k;
              OK (h1, v)
          end
      | None, Some xs =>
          match last xs with
          | None => Err (ListHasNoItem raw_line)
          | Some lastv =>
              if is_PENDING lastv then
                let '(h0, fresh) := alloc h (ODict []) in
                do h1 <- set_last h0 (container frame) fresh;
                OK (h1, fresh)
              else OK (h, lastv)
          end
      | None, None => Err (UnsupportedContainer raw_line)
      end;
    OK (h1, mkFrame ind new_container None).

Definition or_empty (o : option string) : string :=
  match o with Some s => s | None => EmptyString end.

(** The list a [- ] line appends to: the frame's own container, or the
    value under [last_key] when the frame holds a dict. *)
Definition item_target (h : store) (frame : Frame) (raw_line : string)
  : result (store * value) :=
  match dict_at h (container frame) with
  | Some d =>
      match last_key frame with
      | None => Err (ListItemWithoutKey raw_line)
      | Some k =>
          do h1 <-
            (if get_is_PENDING d k then
               let '(h0, fresh) := alloc h (OList []) in
               setitem h0 (container frame) k fresh
             else OK h);
          do c <- getitem h1 (container frame) k;
          OK (h1, c)
      end
  | None => OK (h, container frame)
  end.

(** The body of [if stripped.startswith("- "):], up to its [continue]. *)
Definition item_line (h : store) (frame : Frame)
    (stripped raw_line : string) : result (store * Frame) :=
  let item_text := Str.strip (Str.drop 2 stripped) in
  do '(h1, cont) <- item_target h frame raw_line;
  match list_at h1 cont with
  | None => Err (ExpectedList raw_line)
  | Some _ =>
      if Str.is_empty item_text then
        do h2 <- append h1 cont PENDING;
        OK (h2, frame)
      else if Str.contains ":" item_text then
        let '(key0, rest) := Str.split1 ":" item_text in
        let key := Str.strip key0 in
        let value := Str.strip (or_empty rest) in
        do v <- (if Str.is_empty value then OK PENDING
                 else parse_value value);
        let '(h2, item) := alloc h1 (ODict [(key, v)]) in
        do h3 <- append h2 cont item;
        OK (h3, set_last_key frame key)
      else
        do v <- parse_value item_text;
        do h2 <- append h1 cont v;
        OK (h2, frame)
  end.

(** The rest of the loop body: a [key: value] or a bare [key:] line. *)
Definition mapping_line (h : store) (frame : Frame)
    (stripped raw_line : string) : result (store * Frame) :=
  if negb (Str.contains ":" stripped) then Err (MissingColon raw_line)
  else
    let '(key0, rest) := Str.split1 ":" stripped in
    let key := Str.strip key0 in
    let value := Str.strip (or_empty rest) in
    do v <- (if Str.is_empty value then OK PENDING else parse_value value);
    do h1 <- setitem h (container frame) key v;
    OK (h1, set_last_key frame key).

(** [line = raw_line.split("#", 1)[0].rstrip("\n")] *)
Definition line_of (raw_line : string) : string :=
  Str.rstrip_char Str.LF (fst (Str.split1 "#" raw_line)).

(** [len(line) - len(line.lstrip(" "))] *)
Definition indent_of (line : string) : nat :=
  String.length line - String.length (Str.lstrip_char " " line).

(** One iteration of [for raw_line in lines:]. *)
Definition parse_line (st : state) (raw_line : string) : result state :=
  let line := line_of raw_line in
  if Str.is_empty (Str.strip line) then OK st
  else
    let ind := indent_of line in
    if negb (ind mod 2 =? 0) then Err (InvalidIndentation raw_line)
    else
      let stripped := Str.strip line in
      match pop_frames ind (frames st) with
      | [] => Err InvalidIndentStructure
      | frame :: below =>
          do '(h1, frame1, open) <-
            (if indent frame <? ind then
               do '(h1, pushed) <-
                 enter_block (heap st) frame ind stripped raw_line;
               OK (h1, pushed, frame :: below)
             else OK (heap st, frame, below));
          do '(h2, frame2) <-
            (if is_item stripped
             then item_line h1 frame1 stripped raw_line
             else mapping_line h1 frame1 stripped raw_line);
          OK (mkState h2 (frame2 :: open))
      end.

Fixpoint parse_lines (st : state) (lines : list string) : result state :=
  match lines with
  | [] => OK st
  | raw_line :: rest =>
      do st' <- parse_line st raw_line; parse_lines st' rest
  end.

(** ** finalize *)

#[local] Set Warnings "-register-all".

(** What [parse_yaml] returns: a tree of fresh dicts and lists.
    [Pending] stands for the object [PENDING], were it to survive. *)
Inductive tree : Type :=
| String_ (s : string)
| Boolean (b : bool)
| Null
| Integer (n : Z)
| Float (lit : string)
| Pending
| Mapping (entries : list (string * tree))
| Sequence (items : list tree).

(** All of the results, or none. *)
Fixpoint all_some {A} (xs : list (option A)) : option (list A) :=
  match xs with
  | [] => Some []
  | Some a :: r => option_map (cons a) (all_some r)
  | None :: _ => None
  end.

(** [finalize(obj)], read off the store [h]; [depth] bounds the depth of
    the recursion, [None] tells that the bound was reached. *)
Fixpoint finalize (h : store) (depth : nat) (obj : value) : option tree :=
  match depth with
  | O => None
  | S depth' =>
      match obj with
      | PENDING => Some (Mapping [])
      | VRef l =>
          match h !! l with
          | Some (ODict d) =>
              option_map Mapping
                (all_some
                   (map (fun kv =>
                           option_map (pair (fst kv))
                                      (finalize h depth' (snd kv))) d))
          | Some (OList xs) =>
              option_map Sequence (all_some (map (finalize h depth') xs))
          | None => None
          end
      | VStr s => Some (String_ s)
      | VBool b => Some (Boolean b)
      | VNone => Some Null
      | VInt n => Some (Integer n)
      | VFloat lit => Some (Float lit)
      end
  end.

(** ** parse_yaml *)

(** The depth bound is the number of objects plus one: no chain of
    references in the store is longer. *)
Definition parse_yaml (text : string) : result tree :=
  do st <- parse_lines initial (Str.splitlines text);
  match finalize (heap st) (S (length (heap st))) root with
  | Some t => OK t
  | None => Err DepthExceeded
  end.

Definition nl : string := String Str.LF EmptyString.

(** * The vocabulary of the statements *)

(** ** Lines, as the loop sees them *)

Definition stripped_of (raw_line : string) : string :=
  Str.strip (line_of raw_line).

(** The line is skipped: nothing is left of it once the comment is cut. *)
Definition is_blank (raw_line : string) : bool :=
  Str.is_empty (stripped_of raw_line).

Definition line_indent (raw_line : string) : nat :=
  indent_of (line_of raw_line).

(** The key and the value of a [key: value] line. *)
Definition key_of (stripped : string) : string :=
  Str.strip (fst (Str.split1 ":" stripped)).

Definition value_of (stripped : string) : string :=
  Str.strip (or_empty (snd (Str.split1 ":" stripped))).

(** The text of a [- ] line after its marker, its key and its value. *)
Definition item_text_of (stripped : string) : string :=
  Str.strip (Str.drop 2 stripped).

Definition item_key (stripped : string) : string :=
  key_of (item_text_of stripped).

Definition item_value (stripped : string) : string :=
  value_of (item_text_of stripped).

(** The object a pending slot is resolved to by a child line. *)
Definition resolved_by (stripped : string) : object :=
  if is_item stripped then OList [] else ODict [].

Fixpoint all_space (s : string) : bool :=
  match s with
  | EmptyString => true
  | String c r => Str.is_space c && all_space r
  end.

(** No line boundary inside: the text is one line. *)
Fixpoint one_line (s : string) : bool :=
  match s with
  | EmptyString => true
  | String c r => negb (Str.is_linebreak c) && one_line r
  end.

Definition whitespace_only (c : string) : Prop := all_space c = true.

(** White space, then [#], then any text. *)
Definition comment_only (c : string) : Prop :=
  exists w t, c = (w ++ String "#" t)%string /\ all_space w = true.

(** ** Values and trees *)

Definition is_scalar (v : value) : bool :=
  match v with
  | PENDING | VRef _ => false
  | _ => true
  end.

Definition no_ref (v : value) : Prop :=
  match v with VRef _ => False | _ => True end.

(** The words that [parse_value] reads as a boolean or as [None]. *)
Definition literal_words : list string := ["true"; "false"; "null"; "none"].

Fixpoint no_Pending (t : tree) : bool :=
  match t with
  | Pending => false
  | Mapping entries => forallb (fun kv => no_Pending (snd kv)) entries
  | Sequence items => forallb no_Pending items
  | _ => true
  end.

(** ** The state of the loop *)

(** A reference in the object at [lo] points to a younger object. *)
Definition ref_in (lo hi : nat) (v : value) : Prop :=
  match v with
  | VRef l => lo < l < hi
  | _ => True
  end.

Definition object_values (o : object) : list value :=
  match o with
  | ODict d => map snd d
  | OList xs => xs
  end.

(** References go from older objects to younger ones, and to objects of
    the store: the store holds trees. *)
Definition heap_wf (h : store) : Prop :=
  forall l o, h !! l = Some o ->
              Forall (ref_in l (length h)) (object_values o).

(** The frame holds an object of the store. *)
Definition frame_ok (h : store) (f : Frame) : Prop :=
  exists l, container f = VRef l /\ l < length h.

(** The frame holds a dict or a list. *)
Definition holds_container (h : store) (f : Frame) : Prop :=
  dict_at h (container f) <> None \/ list_at h (container f) <> None.

(** What holds between two lines. *)
Definition invariant (st : state) : Prop :=
  heap_wf (heap st) /\ Forall (frame_ok (heap st)) (frames st)
  /\ 0 < length (heap st).

(** The depth [finalize] needs for [v]: a reference to the object at [l]
    needs one level for each younger object. *)
Definition depth_enough (h : store) (depth : nat) (v : value) : Prop :=
  match v with
  | VRef l => l < length h /\ length h < depth + l
  | _ => 0 < depth
  end.

(** The errors one line can raise when the frames hold dicts and lists. *)
Definition line_error (e : error) : Prop :=
  match e with
  | UnsupportedContainer _ | DepthExceeded | InvalidLiteral _ => False
  | _ => True
  end.

(** Every dict of [h] is still a dict in [h'], with at least its keys. *)
Definition keeps_dicts (h h' : store) : Prop :=
  forall l d, h !! l = Some (ODict d) ->
    exists d', h' !! l = Some (ODict d')
               /\ forall k, dict_get k d <> None -> dict_get k d' <> None.

(** The frame at indentation [i] that holds [c] is still open. *)
Definition open_at (i : nat) (c : value) (fs : list Frame) : Prop :=
  exists above f below,
    fs = above ++ f :: below /\ indent f = i /\ container f = c
    /\ Forall (fun g => i < indent g) above.

(** ** Example texts and the states they lead to *)

(** [key: "a#b"] *)
Definition quoted_hash_text : string :=
  "key: " ++ String Str.DQUOTE ("a#b" ++ String Str.DQUOTE nl).

Definition child_item_text : string := "a:" ++ nl ++ "  - 1" ++ nl.

Definition child_key_text : string := "a:" ++ nl ++ "  b: 1" ++ nl.

Definition bare_item_text : string :=
  "items:" ++ nl ++ "  - key:" ++ nl ++ "    sub: 1" ++ nl.

Definition twice_text : string := "a: 1" ++ nl ++ "a: 2" ++ nl.

Definition twice_apart_text : string :=
  "a: 1" ++ nl ++ "b:" ++ nl ++ "  c: 3" ++ nl ++ "a: 2" ++ nl.

(** After [items:]. *)
Definition after_items : state :=
  mkState [ODict [("items", PENDING)]] [mkFrame 0 root (Some "items")].

(** After [items:] and [  - key:]. *)
Definition after_bare_item : state :=
  mkState [ODict [("items", VRef 1)]; OList [VRef 2]; ODict [("key", PENDING)]]
          [mkFrame 2 (VRef 1) (Some "key"); mkFrame 0 root (Some "items")].

(** After [a: 1]. *)
Definition after_a1 : state :=
  mkState [ODict [("a", VInt 1)]] [mkFrame 0 root (Some "a")].

(** After [a: 1], [b:] and [  c: 3]. *)
Definition after_a1_block : state :=
  mkState [ODict [("a", VInt 1); ("b", VRef 1)]; ODict [("c", VInt 3)]]
          [mkFrame 2 (VRef 1) (Some "c"); mkFrame 0 root (Some "b")].

(** After [a:]. *)
Definition after_bare_key : state :=
  mkState [ODict [("a", PENDING)]] [mkFrame 0 root (Some "a")].

(** * More vocabulary: errors, sequences, keys *)

(** The errors that entering a block, reading a [- ] line and reading a
    [key: value] line can raise. *)
Definition block_error (e : error) : Prop :=
  match e with
  | InvalidIndentLevel _ | MissingKeyForNested _ | ListHasNoItem _
  | UnsupportedContainer _ | KeyError _ | TypeError => True
  | _ => False
  end.

Definition item_error (e : error) : Prop :=
  match e with
  | ListItemWithoutKey _ | ExpectedList _ | KeyError _ | TypeError => True
  | _ => False
  end.

Definition mapping_error (e : error) : Prop :=
  match e with
  | MissingColon _ | TypeError => True
  | _ => False
  end.

(** The errors [parse_yaml] does raise. *)
Definition raised_error (e : error) : Prop :=
  match e with
  | InvalidIndentation _ | InvalidIndentLevel _ | MissingKeyForNested _
  | ListItemWithoutKey _ | ExpectedList _ | MissingColon _
  | KeyError _ | TypeError => True
  | _ => False
  end.

(** A sequence under construction holds no pending marker, and is not
    empty unless it is the one at [fresh], which the line being read has
    just made. *)
Definition lists_ok_except (h : store) (fresh : option loc) : Prop :=
  forall l xs, h !! l = Some (OList xs) ->
               ~ In PENDING xs /\ (xs <> [] \/ fresh = Some l).

Definition lists_ok (h : store) : Prop := lists_ok_except h None.

Fixpoint no_empty_Sequence (t : tree) : bool :=
  match t with
  | Sequence [] => false
  | Sequence items => forallb no_empty_Sequence items
  | Mapping entries => forallb (fun kv => no_empty_Sequence (snd kv)) entries
  | _ => true
  end.

(** What holds of every state the loop reaches. *)
Definition reached (st : state) : Prop :=
  invariant st /\ lists_ok (heap st) /\ open_at 0 root (frames st)
  /\ exists d, heap st !! 0 = Some (ODict d).

(** One text for each error [parse_yaml] raises. *)
Definition odd_indent_text : string := "a:" ++ nl ++ " b: 1" ++ nl.
Definition indent_jump_text : string := "a:" ++ nl ++ "    b: 1" ++ nl.
Definition indented_first_text : string := "  a: 1" ++ nl.
Definition item_first_text : string := "- a" ++ nl.
Definition item_under_scalar_text : string := "a: 1" ++ nl ++ "- b" ++ nl.
Definition no_colon_text : string := "abc" ++ nl.
Definition block_after_item_text : string :=
  "a:" ++ nl ++ "- k: 1" ++ nl ++ "  b: 2" ++ nl.
Definition block_under_scalar_text : string := "a: 1" ++ nl ++ "  b: 2" ++ nl.

(** Every list of [h] is still a list in [h']. *)
Definition keeps_lists (h h' : store) : Prop :=
  forall l xs, h !! l = Some (OList xs) -> exists xs', h' !! l = Some (OList xs').

(** A frame without [last_key] holds a list. *)
Definition keyed (h : store) (f : Frame) : Prop :=
  last_key f <> None \/ list_at h (container f) <> None.

(** After [a:] and [- k: 1]. *)
Definition after_item_in_mapping : state :=
  mkState [ODict [("a", VRef 1)]; OList [VRef 2]; ODict [("k", VInt 1)]]
          [mkFrame 0 root (Some "k")].

(** * The callers of the reader *)

(** What a function outside the reader returns: a value, or the exception
    it raises. *)
Inductive outcome (E A : Type) : Type :=
| Done (a : A)
| Raised (e : E).
Arguments Done {E A} a.
Arguments Raised {E A} e.

(** [m] with [xs] put in front of its result. *)
Definition prepend {E A} (xs : list A) (m : outcome E (list A))
  : outcome E (list A) :=
  match m with
  | Done ys => Done (xs ++ ys)
  | Raised e => Raised e
  end.

(** [s.split(ch)] *)
Fixpoint split_on (ch : ascii) (s : string) : list string :=
  match s with
  | EmptyString => [EmptyString]
  | String c r =>
      if Ascii.eqb c ch then EmptyString :: split_on ch r
      else match split_on ch r with
           | x :: xs => String c x :: xs
           | [] => [String c EmptyString]
           end
  end.

(** ** set_config_value *)

Module ConfigSet.

Inductive error : Type :=
| KeyPathNotFound      (* ValueError "Key path not found in config. ..." *)
| IndexError.          (* keys[0] on an empty list *)

(** [not stripped or stripped.startswith("#")] *)
Definition skipped (line : string) : bool :=
  let stripped := Str.strip line in
  Str.is_empty stripped || Str.startswith "#" stripped.

(** [stripped.split(":", 1)[0]] *)
Definition key_text (line : string) : string :=
  fst (Str.split1 ":" (Str.strip line)).

(** [len(line) - len(line.lstrip(" "))] *)
Definition current_indent (line : string) : nat := indent_of line.

(** The line written in place of the one found. *)
Definition new_line (key value : string) : string :=
  (key ++ ": " ++ value ++ nl)%string.

(** The [while] loop, on the lines from [idx] on: the lines that stand
    there when the loop is left with [found], or the [ValueError] raised
    when it ends without. *)
Fixpoint set_loop (indent : nat) (keys : list string) (value : string)
    (lines : list string) : outcome error (list string) :=
  match lines with
  | [] => Raised KeyPathNotFound
  | line :: rest =>
      if skipped line then prepend [line] (set_loop indent keys value rest)
      else if current_indent line =? indent then
        match keys with
        | [] => Raised IndexError
        | k :: keys' =>
            if String.eqb (key_text line) k then
              match keys' with
              | [] => Done (new_line (key_text line) value :: rest)
              | _ :: _ =>
                  prepend [line] (set_loop (indent + 2) keys' value rest)
              end
            else prepend [line] (set_loop indent keys value rest)
        end
      else prepend [line] (set_loop indent keys value rest)
  end.

(** From the lines read from the file to the lines written back. *)
Definition set_config_value (lines : list string) (key_path value : string)
  : outcome error (list string) :=
  set_loop 0 (split_on "." key_path) value lines.

(** The line is the one the loop looks for. *)
Definition matches (indent : nat) (k : string) (line : string) : bool :=
  negb (skipped line) && (current_indent line =? indent)
  && String.eqb (key_text line) k.

End ConfigSet.

(** ** normalize_device and device_endpoint *)

Module Device.

Inductive error : Type :=
| NoDevicesConfigured              (* ValueError "No devices configured. ..." *)
| DeviceNotFound (hint : string)   (* ValueError "Device '...' not found in config." *)
| HostnameMissing                  (* ValueError "Device hostname missing in config." *)
| AttributeError                   (* x.get or x.startswith on an x that has none *)
| TypeError                        (* a loop over, or [0] of, a number or a bool *)
| KeyError.                        (* d[0] on a dict with str keys *)

(** [d.get(k)]: the value, [None] when the key is absent. *)
Fixpoint get (k : string) (d : list (string * tree)) : tree :=
  match d with
  | [] => Null
  | (k', v) :: d' => if String.eqb k' k then v else get k d'
  end.

(** [x.get(k)] on any value: only a dict has a [get]. *)
Definition get_of (k : string) (x : tree) : outcome error tree :=
  match x with
  | Mapping d => Done (get k d)
  | _ => Raised AttributeError
  end.

(** The characters of a string, as [for c in s] yields them. *)
Fixpoint chars (s : string) : list tree :=
  match s with
  | EmptyString => []
  | String c r => String_ (String c EmptyString) :: chars r
  end.

(** What [for device in devices] goes through. *)
Definition iterate (devices : tree) : outcome error (list tree) :=
  match devices with
  | Sequence items => Done items
  | Mapping d => Done (map (fun kv => String_ (fst kv)) d)
  | String_ s => Done (chars s)
  | _ => Raised TypeError
  end.

(** [devices[0]], for a [devices] that is not empty. *)
Definition first_of (devices : tree) : outcome error tree :=
  match devices with
  | Sequence (x :: _) => Done x
  | String_ (String c _) => Done (String_ (String c EmptyString))
  | Mapping _ => Raised KeyError
  | _ => Raised TypeError
  end.

(** [x == hint] for a [str] hint. *)
Definition is_str (hint : string) (x : tree) : bool :=
  match x with
  | String_ s => String.eqb s hint
  | _ => false
  end.

(** The first loop of [normalize_device]. *)
Fixpoint find_by_hint (hint : string) (devices : list tree)
  : outcome error (option tree) :=
  match devices with
  | [] => Done None
  | device :: rest =>
      match get_of "name" device, get_of "hostname" device with
      | Done name, Done hostname =>
          if is_str hint name || is_str hint hostname then Done (Some device)
          else find_by_hint hint rest
      | Raised e, _ => Raised e
      | _, Raised e => Raised e
      end
  end.

Section Python.

(** Two things of Python that depend on the value of a float, which the
    embedding does not have: the result of [==] on two values, and the
    truth value of a float. *)
Variable py_eq : tree -> tree -> bool.
Variable float_truth : string -> bool.

(** [bool(x)] *)
Definition truthy (x : tree) : bool :=
  match x with
  | String_ s => negb (Str.is_empty s)
  | Boolean b => b
  | Null => false
  | Integer n => negb (Z.eqb n 0)
  | Float lit => float_truth lit
  | Pending => true
  | Mapping entries => match entries with [] => false | _ => true end
  | Sequence items => match items with [] => false | _ => true end
  end.

(** The second loop of [normalize_device]. *)
Fixpoint find_by_name (default_name : tree) (devices : list tree)
  : outcome error (option tree) :=
  match devices with
  | [] => Done None
  | device :: rest =>
      match get_of "name" device with
      | Done name =>
          if py_eq name default_name then Done (Some device)
          else find_by_name default_name rest
      | Raised e => Raised e
      end
  end.

(** [if device_hint:] *)
Definition hint_given (device_hint : option string) : option string :=
  match device_hint with
  | Some s => if Str.is_empty s then None else Some s
  | None => None
  end.

Definition normalize_device (config : list (string * tree))
    (device_hint : option string) : outcome error tree :=
  let devices :=
    if truthy (get "devices" config) then get "devices" config
    else Sequence [] in
  if negb (truthy devices) then Raised NoDevicesConfigured
  else
    let default_name := get "default_device" config in
    match hint_given device_hint with
    | Some hint =>
        match iterate devices with
        | Raised e => Raised e
        | Done items =>
            match find_by_hint hint items with
            | Raised e => Raised e
            | Done (Some device) => Done device
            | Done None => Raised (DeviceNotFound hint)
            end
        end
    | None =>
        if truthy default_name then
          match iterate devices with
          | Raised e => Raised e
          | Done items =>
              match find_by_name default_name items with
              | Raised e => Raised e
              | Done (Some device) => Done device
              | Done None => first_of devices
              end
          end
        else first_of devices
    end.

Definition has_scheme (hostname : string) : bool :=
  Str.startswith "http://" hostname || Str.startswith "https://" hostname.

Definition device_endpoint (device : tree) : outcome error string :=
  match get_of "hostname" device with
  | Raised e => Raised e
  | Done hostname =>
      if negb (truthy hostname) then Raised HostnameMissing
      else match hostname with
           | String_ s =>
               if has_scheme s
               then Done (Str.rstrip_char "/" s ++ "/measures/current")%string
               else Done ("http://" ++ s ++ "/measures/current")%string
           | _ => Raised AttributeError
           end
  end.

End Python.

(** The device has neither the hint as its name nor as its hostname. *)
Definition other_device (hint : string) (x : tree) : Prop :=
  exists d, x = Mapping d
            /\ is_str hint (get "name" d) = false
            /\ is_str hint (get "hostname" d) = false.

(** The device has the hint as its name or as its hostname. *)
Definition hinted_device (hint : string) (x : tree) : Prop :=
  exists d, x = Mapping d
            /\ (is_str hint (get "name" d) = true
                \/ is_str hint (get "hostname" d) = true).

(** An equality that is right on strings, for the examples. *)
Definition str_eq (a b : tree) : bool :=
  match a, b with
  | String_ s, String_ s' => String.eqb s s'
  | _, _ => false
  end.

Definition kitchen : tree :=
  Mapping [("name", String_ "kitchen"); ("hostname", String_ "10.0.0.5")].

Definition office : tree :=
  Mapping [("name", String_ "office"); ("hostname", String_ "http://office.lan/")].

End Device.

(** ** print_alerts *)

(** The [for] loop of [print_alerts]: [severity] after the alerts. *)
Fixpoint severity_loop (severity : nat) (alerts : list string) : nat :=
  match alerts with
  | [] => severity
  | alert :: rest =>
      severity_loop
        (if Str.startswith "CRITICAL" alert then 2 else severity) rest
  end.

(** What [print_alerts] returns, which [main] passes to [sys.exit]; what
    it prints is left out. *)
Definition print_alerts (alerts : list string) : nat :=
  match alerts with
  | [] => 0
  | _ :: _ => severity_loop 1 alerts
  end.

Definition is_critical (alert : string) : bool :=
  Str.startswith "CRITICAL" alert.

(** ** Quoted tokens *)

(** [q + s + q] *)
Definition quoted (q : ascii) (s : string) : string :=
  String q (s ++ String q EmptyString).

(** * Properties *)

(** ** The error monad *)

Lemma bind_OK {A B} (m : result A) (k : A -> result B) (b : B) :
  bind m k = OK b -> exists a, m = OK a /\ k a = OK b.
Proof. destruct m as [a|e]; simpl; [eauto | discriminate]. Qed.

Lemma bind_Err {A B} (m : result A) (k : A -> result B) (e : error) :
  bind m k = Err e -> m = Err e \/ exists a, m = OK a /\ k a = Err e.
Proof. destruct m as [a|e']; simpl; [eauto | intros [= ->]; auto]. Qed.

(** ** parse_value never raises *)

Lemma py_float_result (raw : string) :
  py_float raw = OK (VFloat raw) \/ py_float raw = Err (InvalidLiteral raw).
Proof. unfold py_float. destruct (_ && _); auto. Qed.

Lemma py_int_result (raw : string) :
  (exists n, py_int raw = OK n) \/ py_int raw = Err (InvalidLiteral raw).
Proof.
  unfold py_int.
  match goal with
  | |- context [match ?p with Some _ => _ | None => _ end] => destruct p
  end; eauto.
Qed.

Lemma parse_value_scalar (raw : string) :
  exists v, parse_value raw = OK v /\ is_scalar v = true.
Proof.
  unfold parse_value.
  destruct (quoted_by _ raw); [eauto |].
  destruct (quoted_by _ raw); [eauto |].
  destruct (_ || _); [eauto |].
  destruct (_ || _); [eauto |].
  destruct (Str.contains _ raw).
  - destruct (py_float_result raw) as [-> | ->]; simpl; eauto.
  - destruct (py_int_result raw) as [[n ->] | ->]; simpl; eauto.
Qed.

(** ** The store primitives *)

Lemma setitem_OK (h : store) c k v h' :
  setitem h c k v = OK h' ->
  exists l d, c = VRef l /\ h !! l = Some (ODict d)
              /\ h' = <[l := ODict (dict_set k v d)]> h.
Proof.
  unfold setitem. destruct c; try discriminate.
  destruct (h !! l) as [[d|xs]|] eqn:E; try discriminate.
  intros [= <-]. eauto.
Qed.

Lemma append_OK (h : store) c v h' :
  append h c v = OK h' ->
  exists l xs, c = VRef l /\ h !! l = Some (OList xs)
               /\ h' = <[l := OList (xs ++ [v])]> h.
Proof.
  unfold append. destruct c; try discriminate.
  destruct (h !! l) as [[d|xs]|] eqn:E; try discriminate.
  intros [= <-]. eauto.
Qed.

Lemma set_last_OK (h : store) c v h' :
  set_last h c v = OK h' ->
  exists l xs, c = VRef l /\ h !! l = Some (OList xs)
               /\ h' = <[l := OList (removelast xs ++ [v])]> h.
Proof.
  unfold set_last. destruct c; try discriminate.
  destruct (h !! l) as [[d|xs]|] eqn:E; try discriminate.
  intros [= <-]. eauto.
Qed.

Lemma dict_at_Some (h : store) c d :
  dict_at h c = Some d -> exists l, c = VRef l /\ h !! l = Some (ODict d).
Proof.
  unfold dict_at. destruct c; try discriminate.
  destruct (h !! l) as [[d'|xs]|] eqn:E; try discriminate.
  intros [= <-]. eauto.
Qed.

Lemma list_at_Some (h : store) c xs :
  list_at h c = Some xs -> exists l, c = VRef l /\ h !! l = Some (OList xs).
Proof.
  unfold list_at. destruct c; try discriminate.
  destruct (h !! l) as [[d'|xs']|] eqn:E; try discriminate.
  intros [= <-]. eauto.
Qed.

(** ** Dicts *)

Lemma dict_get_set_eq k v d : dict_get k (dict_set k v d) = Some v.
Proof.
  induction d as [|[k' v'] d IH]; simpl.
  - now rewrite String.eqb_refl.
  - destruct (String.eqb k' k) eqn:E; simpl; rewrite E; auto.
Qed.

Lemma dict_get_set_ne k k' v d :
  k <> k' -> dict_get k' (dict_set k v d) = dict_get k' d.
Proof.
  intros Hne. induction d as [|[k0 v0] d IH]; simpl.
  - destruct (String.eqb k k') eqn:E; auto.
    apply String.eqb_eq in E. contradiction.
  - destruct (String.eqb k0 k) eqn:E; simpl.
    + apply String.eqb_eq in E. subst k0.
      destruct (String.eqb k k') eqn:E'; auto.
      apply String.eqb_eq in E'. contradiction.
    + now rewrite IH.
Qed.

Lemma dict_set_values (P : value -> Prop) k v d :
  P v -> Forall P (map snd d) -> Forall P (map snd (dict_set k v d)).
Proof.
  intros Hv. induction d as [|[k' v'] d IH]; simpl; intros Hd.
  - repeat constructor. exact Hv.
  - inversion Hd as [|? ? Hv' Hd']; subst.
    destruct (String.eqb k' k); simpl; constructor; auto.
Qed.

Lemma Forall_removelast {A} (P : A -> Prop) (xs : list A) :
  Forall P xs -> Forall P (removelast xs).
Proof.
  induction xs as [|x [|y xs] IH]; simpl; intros H; auto.
  inversion H; subst. constructor; auto.
Qed.

(** ** The invariant of the loop *)

Lemma ref_in_mono lo hi hi' v : hi <= hi' -> ref_in lo hi v -> ref_in lo hi' v.
Proof. destruct v; simpl; auto. lia. Qed.

Lemma no_ref_ref_in lo hi v : no_ref v -> ref_in lo hi v.
Proof. destruct v; simpl; tauto. Qed.

Lemma scalar_no_ref v : is_scalar v = true -> no_ref v.
Proof. destruct v; simpl; auto; discriminate. Qed.

Lemma heap_wf_alloc (h : store) o :
  heap_wf h -> Forall no_ref (object_values o) -> heap_wf (h ++ [o]).
Proof.
  intros Hwf Ho l o' Hl. rewrite length_app. simpl.
  destruct (decide (l < length h)) as [Hlt|Hge].
  - rewrite lookup_app_l in Hl by exact Hlt.
    eapply Forall_impl; [apply (Hwf _ _ Hl)|].
    intros v. apply ref_in_mono. lia.
  - rewrite lookup_app_r in Hl by lia.
    destruct (l - length h) eqn:E; simpl in Hl; [|destruct n; discriminate].
    injection Hl as <-.
    eapply Forall_impl; [exact Ho|]. intros v. apply no_ref_ref_in.
Qed.

Lemma heap_wf_insert (h : store) l o :
  heap_wf h -> Forall (ref_in l (length h)) (object_values o) ->
  heap_wf (<[l := o]> h).
Proof.
  intros Hwf Ho l' o' Hl. rewrite length_insert.
  destruct (decide (l = l')) as [<-|Hne].
  - destruct (decide (l < length h)) as [Hlt|Hge].
    + rewrite list_lookup_insert_eq in Hl by exact Hlt.
      injection Hl as <-. exact Ho.
    + rewrite list_insert_ge in Hl by lia. exact (Hwf _ _ Hl).
  - rewrite list_lookup_insert_ne in Hl by exact Hne. exact (Hwf _ _ Hl).
Qed.

Lemma frame_ok_mono (h h' : store) f :
  length h <= length h' -> frame_ok h f -> frame_ok h' f.
Proof. intros Hle (l & Hc & Hl). exists l. split; [exact Hc | lia]. Qed.

Lemma pop_frames_Forall (P : Frame -> Prop) ind fs :
  Forall P fs -> Forall P (pop_frames ind fs).
Proof.
  induction fs as [|f fs IH]; simpl; intros H; auto.
  destruct (ind <? indent f); auto. inversion H; auto.
Qed.

(** Splitting a successful run of monadic code into its steps. *)
Ltac split_ok :=
  repeat match goal with
  | H : bind _ _ = OK _ |- _ =>
      let a := fresh "a" in let Ha := fresh "Ha" in
      apply bind_OK in H; destruct H as (a & Ha & H)
  | H : OK _ = OK _ |- _ => injection H as H; subst
  | H : Err _ = OK _ |- _ => discriminate H
  | H : (_, _) = (_, _) |- _ => injection H as ? ?; subst
  | H : match ?x with _ => _ end = OK _ |- _ =>
      let E := fresh "E" in destruct x eqn:E
  end.

(** Resolving a pending slot: a fresh object is stored under [k]. *)
Lemma resolve_wf (h : store) c k o d h' :
  heap_wf h -> dict_at h c = Some d ->
  setitem (h ++ [o]) c k (VRef (length h)) = OK h' ->
  Forall no_ref (object_values o) ->
  heap_wf h' /\ length h' = S (length h).
Proof.
  intros Hwf Hd Hset Ho.
  apply dict_at_Some in Hd as (l & -> & Hl).
  apply setitem_OK in Hset as (l' & d' & [= <-] & Hl' & ->).
  pose proof (lookup_lt_Some _ _ _ Hl) as Hlt.
  rewrite lookup_app_l in Hl' by exact Hlt.
  rewrite Hl in Hl'. injection Hl' as <-.
  rewrite length_insert, length_app. simpl. split; [|lia].
  apply heap_wf_insert; [apply heap_wf_alloc; assumption|].
  rewrite length_app. simpl. apply dict_set_values.
  - simpl. lia.
  - eapply Forall_impl; [apply (Hwf _ _ Hl)|].
    intros v. apply ref_in_mono. lia.
Qed.

Lemma setitem_wf (h : store) c k v h' :
  heap_wf h -> no_ref v -> setitem h c k v = OK h' ->
  heap_wf h' /\ length h' = length h /\ frame_ok h' (mkFrame 0 c None).
Proof.
  intros Hwf Hv Hset.
  apply setitem_OK in Hset as (l & d & -> & Hl & ->).
  pose proof (lookup_lt_Some _ _ _ Hl) as Hlt.
  rewrite length_insert. split; [|split; [reflexivity|]].
  - apply heap_wf_insert; [assumption|]. apply dict_set_values.
    + now apply no_ref_ref_in.
    + apply (Hwf _ _ Hl).
  - exists l. simpl. rewrite length_insert. auto.
Qed.

Lemma append_wf (h : store) c v h' :
  heap_wf h -> (forall l, c = VRef l -> ref_in l (length h) v) ->
  append h c v = OK h' ->
  heap_wf h' /\ length h' = length h /\ frame_ok h' (mkFrame 0 c None).
Proof.
  intros Hwf Hv Happ.
  apply append_OK in Happ as (l & xs & -> & Hl & ->).
  pose proof (lookup_lt_Some _ _ _ Hl) as Hlt.
  rewrite length_insert. split; [|split; [reflexivity|]].
  - apply heap_wf_insert; [assumption|]. simpl.
    apply Forall_app. split; [apply (Hwf _ _ Hl)|].
    repeat constructor. now apply Hv.
  - exists l. simpl. rewrite length_insert. auto.
Qed.

Lemma set_last_wf (h : store) c v h' :
  heap_wf h -> (forall l, c = VRef l -> ref_in l (length h) v) ->
  set_last h c v = OK h' ->
  heap_wf h' /\ length h' = length h.
Proof.
  intros Hwf Hv Hset.
  apply set_last_OK in Hset as (l & xs & -> & Hl & ->).
  rewrite length_insert. split; [|reflexivity].
  apply heap_wf_insert; [assumption|]. simpl.
  apply Forall_app. split.
  - apply Forall_removelast. apply (Hwf _ _ Hl).
  - repeat constructor. now apply Hv.
Qed.

Lemma parse_value_no_ref raw v : parse_value raw = OK v -> no_ref v.
Proof.
  destruct (parse_value_scalar raw) as (v' & -> & Hs).
  intros [= <-]. now apply scalar_no_ref.
Qed.

Lemma enter_block_wf h frame ind stripped raw_line h' pushed :
  enter_block h frame ind stripped raw_line = OK (h', pushed) ->
  heap_wf h -> heap_wf h' /\ length h <= length h'.
Proof.
  unfold enter_block, alloc. intros H Hwf. split_ok.
  all: try (split; [assumption | lia]).
  all: try match goal with
    | Hd : dict_at ?h ?c = Some ?d,
      Hs : setitem (?h ++ [?o]) ?c _ _ = OK _ |- _ =>
        destruct (resolve_wf _ _ _ _ _ _ Hwf Hd Hs);
        first [ split; [assumption | lia]
              | try match goal with
                    | |- context [if ?b then _ else _] => destruct b
                    end; simpl; constructor ]
    end.
  (* a list, its last item pending *)
  match goal with
  | Hl : list_at _ _ = Some _, Hs : set_last _ _ _ = OK _ |- _ =>
      apply list_at_Some in Hl as (lc & Hc & Hl);
      pose proof (lookup_lt_Some _ _ _ Hl) as Hlt;
      eapply set_last_wf in Hs as [Hwf' Hlen]
  end.
  - rewrite length_app in Hlen. simpl in Hlen. split; [assumption | lia].
  - apply heap_wf_alloc; [assumption | constructor].
  - rewrite Hc. intros l' [= <-]. rewrite length_app. simpl. lia.
Qed.

Lemma item_target_wf h frame raw_line h1 cont :
  item_target h frame raw_line = OK (h1, cont) ->
  heap_wf h ->
  heap_wf h1 /\ length h <= length h1
  /\ (dict_at h (container frame) = None -> cont = container frame).
Proof.
  unfold item_target, alloc. intros H Hwf. split_ok.
  all: try (split; [assumption | split; [lia | congruence]]).
  match goal with
  | Hd : dict_at ?h ?c = Some ?d,
    Hs : setitem (?h ++ [?o]) ?c _ _ = OK _ |- _ =>
      destruct (resolve_wf _ _ _ _ _ _ Hwf Hd Hs); [constructor|];
      split; [assumption | split; [lia | congruence]]
  end.
Qed.

Lemma item_line_wf h frame stripped raw_line h' frame' :
  item_line h frame stripped raw_line = OK (h', frame') ->
  heap_wf h ->
  heap_wf h' /\ length h <= length h' /\ frame_ok h' frame'
  /\ indent frame' = indent frame.
Proof.
  unfold item_line, alloc. intros H Hwf.
  apply bind_OK in H as ([h1 cont] & Htgt & H).
  destruct (item_target_wf _ _ _ _ _ Htgt Hwf) as (Hwf1 & Hlen1 & Hcont).
  destruct (list_at h1 cont) as [xs|] eqn:Hxs; [|discriminate].
  apply list_at_Some in Hxs as (lc & -> & Hlc).
  pose proof (lookup_lt_Some _ _ _ Hlc) as Hlt.
  assert (Hframe : forall h2, length h1 <= length h2 ->
                     frame_ok h2 (mkFrame 0 (VRef lc) None) ->
                     forall o, frame_ok h2 (mkFrame (indent frame)
                                              (container frame) o)).
  { intros h2 Hle Hok o.
    destruct (dict_at h (container frame)) as [d|] eqn:Hd.
    - apply dict_at_Some in Hd as (l & Hc & Hl).
      apply lookup_lt_Some in Hl. exists l. simpl. split; [assumption | lia].
    - specialize (Hcont eq_refl). destruct Hok as (l & Hc & Hl).
      exists l. simpl in *. split; [congruence | assumption]. }
  assert (Hsame : forall o, frame_ok h' (mkFrame (indent frame)
                                      (container frame) o) ->
                  forall f, (f = frame \/ exists k, f = set_last_key frame k) ->
                  frame_ok h' f /\ indent f = indent frame).
  { intros o Hok f [-> | [k ->]]; (split; [|reflexivity]);
      destruct Hok as (l & Hc & Hl); exists l; simpl in *; auto. }
  split_ok.
  all: repeat match goal with
       | Hp : parse_value _ = OK _ |- _ => apply parse_value_no_ref in Hp
       end.
  all: match goal with
       | Hs : append _ _ _ = OK _ |- _ =>
           eapply append_wf in Hs as (Hwf' & Hlen & Hok)
       end.
  all: try (first [ assumption
                  | apply heap_wf_alloc;
                    [assumption | repeat constructor; assumption] ]).
  all: try (intros l0 Hl0;
            first [ exact I
                  | now apply no_ref_ref_in
                  | injection Hl0 as <-; rewrite length_app; simpl; lia ]).
  all: try rewrite length_app in Hlen; simpl in Hlen.
  all: split; [assumption | split; [lia|]].
  all: apply (Hsame None); [apply Hframe; [lia | assumption] | eauto].
Qed.

Lemma mapping_line_wf h frame stripped raw_line h' frame' :
  mapping_line h frame stripped raw_line = OK (h', frame') ->
  heap_wf h ->
  heap_wf h' /\ length h <= length h' /\ frame_ok h' frame'
  /\ indent frame' = indent frame.
Proof.
  unfold mapping_line. intros H Hwf. split_ok.
  all: repeat match goal with
       | Hp : parse_value _ = OK _ |- _ => apply parse_value_no_ref in Hp
       end.
  all: match goal with
       | Hs : setitem _ _ _ _ = OK _ |- _ =>
           eapply setitem_wf in Hs as (Hwf' & Hlen & Hok);
           [| assumption | first [exact I | assumption] ]
       end.
  all: split; [assumption | split; [lia | split; [|reflexivity]]].
  all: destruct Hok as (l & Hc & Hl); exists l; simpl in *; auto.
Qed.

Lemma Forall_frame_ok_mono (h h' : store) fs :
  length h <= length h' ->
  Forall (frame_ok h) fs -> Forall (frame_ok h') fs.
Proof.
  intros Hle H. eapply Forall_impl; [exact H|].
  intros f. now apply frame_ok_mono.
Qed.

(** The loop body keeps the invariant, and leaves on top a frame at the
    indentation of the line it read. *)
Lemma parse_line_invariant st raw_line st' :
  parse_line st raw_line = OK st' ->
  invariant st -> invariant st'.
Proof.
  unfold parse_line, invariant. intros H (Hwf & Hfs & Hroot).
  destruct (Str.is_empty (Str.strip (line_of raw_line))).
  { injection H as <-. auto. }
  destruct (negb _); [discriminate|].
  pose proof (pop_frames_Forall _ (indent_of (line_of raw_line)) _ Hfs)
    as Hpop.
  destruct (pop_frames _ (frames st)) as [|frame below]; [discriminate|].
  apply bind_OK in H as ([[h1 frame1] open] & Henter & H).
  apply bind_OK in H as ([h2 frame2] & Hline & H).
  injection H as <-. simpl.
  assert (Hmid : heap_wf h1 /\ length (heap st) <= length h1
                 /\ Forall (frame_ok h1) open).
  { destruct (indent frame <? _).
    - apply bind_OK in Henter as ([h1' pushed] & He & Henter).
      injection Henter as <- <- <-.
      destruct (enter_block_wf _ _ _ _ _ _ _ He Hwf) as [Hwf1 Hlen].
      split; [assumption | split; [assumption|]].
      eapply Forall_frame_ok_mono; eassumption.
    - injection Henter as <- <- <-.
      split; [assumption | split; [lia|]]. now inversion Hpop. }
  destruct Hmid as (Hwf1 & Hlen1 & Hopen).
  assert (Hend : heap_wf h2 /\ length h1 <= length h2 /\ frame_ok h2 frame2
                 /\ indent frame2 = indent frame1).
  { destruct (is_item _);
      [eapply item_line_wf | eapply mapping_line_wf]; eassumption. }
  destruct Hend as (Hwf2 & Hlen2 & Hok2 & _).
  split; [assumption | split; [|lia]]. constructor; [assumption|].
  eapply Forall_frame_ok_mono; eassumption.
Qed.

Lemma initial_invariant : invariant initial.
Proof.
  split; [|split].
  - intros [|l] o; simpl; [|discriminate]. intros [= <-]. constructor.
  - repeat constructor. exists 0. simpl. auto.
  - simpl. lia.
Qed.

Lemma parse_lines_invariant lines : forall st st',
  parse_lines st lines = OK st' -> invariant st -> invariant st'.
Proof.
  induction lines as [|raw_line lines IH]; simpl; intros st st' H Hinv.
  - now injection H as <-.
  - apply bind_OK in H as (st1 & H1 & H).
    eapply IH; [eassumption|]. eapply parse_line_invariant; eassumption.
Qed.

(** ** finalize stays within its depth bound *)

Lemma all_some_map_Some {A B} (f : A -> option B) (xs : list A) :
  Forall (fun x => exists y, f x = Some y) xs ->
  exists ys, all_some (map f xs) = Some ys.
Proof.
  induction 1 as [|x xs [y Hy] _ [ys IH]]; simpl.
  - eauto.
  - rewrite Hy, IH. simpl. eauto.
Qed.

Lemma finalize_value (h : store) :
  heap_wf h ->
  forall depth v, depth_enough h depth v ->
                  exists t, finalize h depth v = Some t.
Proof.
  intros Hwf. induction depth as [|depth IH]; intros v Hv.
  { destruct v; simpl in Hv; lia. }
  destruct v; simpl; eauto.
  simpl in Hv.
  destruct (h !! l) as [o|] eqn:Hl.
  2:{ apply lookup_ge_None in Hl. lia. }
  pose proof (Hwf _ _ Hl) as Ho.
  assert (Hsub : Forall (fun x => exists t, finalize h depth x = Some t)
                   (object_values o)).
  { eapply Forall_impl; [exact Ho|]. intros x Hx.
    apply IH. destruct x; simpl in *; lia. }
  destruct o as [d|xs]; simpl in Hsub.
  - assert (Forall (fun kv => exists y,
                      option_map (pair (fst kv)) (finalize h depth (snd kv))
                      = Some y) d) as Hkv.
    { clear -Hsub. induction d as [|kv d IHd]; [constructor|].
      inversion Hsub as [|? ? [t Ht] Hd']; subst. constructor; auto.
      rewrite Ht. simpl. eauto. }
    apply all_some_map_Some in Hkv as [ys ->]. simpl. eauto.
  - apply all_some_map_Some in Hsub as [ys ->]. simpl. eauto.
Qed.

Lemma finalize_root st :
  invariant st ->
  exists t, finalize (heap st) (S (length (heap st))) root = Some t.
Proof.
  intros (Hwf & _ & Hlen). apply finalize_value; [assumption|].
  simpl. lia.
Qed.

(** ** The errors of the loop *)

Lemma setitem_Err (h : store) c k v e : setitem h c k v = Err e -> e = TypeError.
Proof.
  unfold setitem. destruct c; try (now intros [= <-]).
  destruct (h !! l) as [[d|xs]|]; now intros [= <-].
Qed.

Lemma append_Err (h : store) c v e : append h c v = Err e -> e = TypeError.
Proof.
  unfold append. destruct c; try (now intros [= <-]).
  destruct (h !! l) as [[d|xs]|]; now intros [= <-].
Qed.

Lemma set_last_Err (h : store) c v e : set_last h c v = Err e -> e = TypeError.
Proof.
  unfold set_last. destruct c; try (now intros [= <-]).
  destruct (h !! l) as [[d|xs]|]; now intros [= <-].
Qed.

Lemma getitem_Err (h : store) c k e :
  getitem h c k = Err e -> e = TypeError \/ e = KeyError k.
Proof.
  unfold getitem. destruct (dict_at h c) as [d|]; [|intros [= <-]; auto].
  destruct (dict_get k d); [discriminate | intros [= <-]; auto].
Qed.

Lemma parse_value_Err raw e : parse_value raw = Err e -> False.
Proof. destruct (parse_value_scalar raw) as (v & -> & _). discriminate. Qed.

(** Splitting a failed run of monadic code at the step that raised. *)
Ltac split_err :=
  repeat match goal with
  | H : bind _ _ = Err _ |- _ =>
      let a := fresh "a" in let Ha := fresh "Ha" in
      apply bind_Err in H; destruct H as [H | (a & Ha & H)]
  | H : Err _ = Err _ |- _ => injection H as H; subst
  | H : OK _ = Err _ |- _ => discriminate H
  | H : parse_value _ = Err _ |- _ => destruct (parse_value_Err _ _ H)
  | H : setitem _ _ _ _ = Err _ |- _ => apply setitem_Err in H; subst
  | H : append _ _ _ = Err _ |- _ => apply append_Err in H; subst
  | H : set_last _ _ _ = Err _ |- _ => apply set_last_Err in H; subst
  | H : getitem _ _ _ = Err _ |- _ =>
      apply getitem_Err in H; destruct H; subst
  | H : match ?x with _ => _ end = Err _ |- _ =>
      let E := fresh "E" in destruct x eqn:E
  end.

Lemma item_line_Err h frame stripped raw_line e :
  item_line h frame stripped raw_line = Err e -> line_error e.
Proof.
  unfold item_line, item_target, alloc. intros H. split_err; exact I.
Qed.

Lemma mapping_line_Err h frame stripped raw_line e :
  mapping_line h frame stripped raw_line = Err e -> line_error e.
Proof.
  unfold mapping_line. intros H. split_err; exact I.
Qed.

Lemma frame_ok_container_kind h frame :
  frame_ok h frame ->
  dict_at h (container frame) = None ->
  list_at h (container frame) = None -> False.
Proof.
  intros (l & Hc & Hl). rewrite Hc. unfold dict_at, list_at.
  apply lookup_lt_is_Some in Hl as [[d|xs] ->]; discriminate.
Qed.

Lemma enter_block_Err h frame ind stripped raw_line e :
  enter_block h frame ind stripped raw_line = Err e ->
  frame_ok h frame -> line_error e.
Proof.
  unfold enter_block, alloc. intros H Hok. split_err; try exact I.
  exfalso. eapply frame_ok_container_kind; eassumption.
Qed.

Lemma parse_line_Err st raw_line e :
  parse_line st raw_line = Err e -> invariant st -> line_error e.
Proof.
  unfold parse_line. intros H (Hwf & Hfs & _).
  destruct (Str.is_empty _); [discriminate|].
  destruct (negb _); [now injection H as <-|].
  pose proof (pop_frames_Forall _ (indent_of (line_of raw_line)) _ Hfs)
    as Hpop.
  destruct (pop_frames _ (frames st)) as [|frame below];
    [now injection H as <-|].
  inversion Hpop as [|? ? Hframe _]; subst.
  apply bind_Err in H as [H | ([[h1 frame1] open] & Henter & H)].
  - destruct (indent frame <? _); [|discriminate].
    apply bind_Err in H as [H | ([h1 pushed] & _ & H)]; [|discriminate].
    eapply enter_block_Err; eassumption.
  - apply bind_Err in H as [H | ([h2 frame2] & _ & H)]; [|discriminate].
    destruct (is_item _);
      [eapply item_line_Err | eapply mapping_line_Err]; eassumption.
Qed.

Lemma parse_lines_Err lines : forall st e,
  parse_lines st lines = Err e -> invariant st -> line_error e.
Proof.
  induction lines as [|raw_line lines IH]; simpl; intros st e H Hinv.
  - discriminate.
  - apply bind_Err in H as [H | (st1 & H1 & H)].
    + eapply parse_line_Err; eassumption.
    + eapply IH; [eassumption|]. eapply parse_line_invariant; eassumption.
Qed.

(** [parse_yaml] never stops at the depth bound of [finalize]. *)
Lemma parse_yaml_depth (text : string) :
  parse_yaml text <> Err DepthExceeded.
Proof.
  unfold parse_yaml.
  destruct (parse_lines initial (Str.splitlines text)) as [st|e] eqn:E.
  - apply parse_lines_invariant in E; [|apply initial_invariant].
    unfold bind. destruct (finalize_root st E) as [t ->]. discriminate.
  - apply parse_lines_Err in E; [|apply initial_invariant].
    unfold bind. intros [= ->]. exact E.
Qed.

(** ** finalize and the pending marker *)

Lemma all_some_Forall2 {A B} (f : A -> option B) (xs : list A) :
  forall ys, all_some (map f xs) = Some ys ->
             Forall2 (fun x y => f x = Some y) xs ys.
Proof.
  induction xs as [|x xs IH]; simpl; intros ys H.
  - injection H as <-. constructor.
  - destruct (f x) as [y|] eqn:Hy; [|discriminate].
    destruct (all_some (map f xs)) as [ys'|]; [|discriminate].
    injection H as <-. constructor; auto.
Qed.

Lemma finalize_no_Pending (h : store) :
  forall depth v t, finalize h depth v = Some t -> no_Pending t = true.
Proof.
  induction depth as [|depth IH]; simpl; intros v t H; [discriminate|].
  destruct v; try (injection H as <-; reflexivity).
  destruct (h !! l) as [[d|xs]|]; [| |discriminate].
  - destruct (all_some _) as [ys|] eqn:E; [|discriminate].
    injection H as <-. simpl. apply all_some_Forall2 in E.
    induction E as [|kv y d ys Hy _ IHE]; simpl; [reflexivity|].
    rewrite IHE, andb_true_r.
    destruct (finalize h depth (snd kv)) as [t|] eqn:Ht; [|discriminate].
    injection Hy as <-. simpl. eapply IH; eassumption.
  - destruct (all_some _) as [ys|] eqn:E; [|discriminate].
    injection H as <-. simpl. apply all_some_Forall2 in E.
    induction E as [|x y xs ys Hy _ IHE]; simpl; [reflexivity|].
    rewrite IHE, andb_true_r. eapply IH; eassumption.
Qed.

(** ** Skipped lines and the lines of a text *)

Lemma split1_no_sep ch (a b : string) :
  Str.contains ch a = false ->
  Str.split1 ch (a ++ String ch b) = (a, Some b).
Proof.
  induction a as [|c a IH]; simpl.
  - now rewrite Ascii.eqb_refl.
  - intros H. apply orb_false_iff in H as [Hc Ha].
    rewrite Hc, (IH Ha). reflexivity.
Qed.

Lemma all_space_lstrip s : all_space s = true -> Str.lstrip s = EmptyString.
Proof.
  induction s as [|c s IH]; simpl; [reflexivity|].
  intros H. apply andb_true_iff in H as [-> Hs]. auto.
Qed.

Lemma all_space_rstrip_char ch s :
  all_space s = true -> all_space (Str.rstrip_char ch s) = true.
Proof.
  induction s as [|c s IH]; simpl; [reflexivity|].
  intros H. apply andb_true_iff in H as [Hc Hs].
  destruct (Str.is_empty _ && _); simpl; [reflexivity|].
  now rewrite Hc, IH.
Qed.

Lemma all_space_split1 ch s :
  all_space s = true -> all_space (fst (Str.split1 ch s)) = true.
Proof.
  induction s as [|c s IH]; simpl; [reflexivity|].
  intros H. apply andb_true_iff in H as [Hc Hs].
  destruct (Ascii.eqb c ch); simpl; [reflexivity|].
  specialize (IH Hs). destruct (Str.split1 ch s). simpl in *.
  now rewrite Hc, IH.
Qed.

Lemma all_space_no_hash w : all_space w = true -> Str.contains "#" w = false.
Proof.
  induction w as [|c w IH]; simpl; [reflexivity|].
  intros H. apply andb_true_iff in H as [Hc Hs]. rewrite (IH Hs), orb_false_r.
  destruct (Ascii.eqb_spec c "#"); [subst c; discriminate | reflexivity].
Qed.

Lemma all_space_blank s :
  all_space s = true ->
  Str.is_empty (Str.strip (Str.rstrip_char Str.LF s)) = true.
Proof.
  intros H. unfold Str.strip.
  now rewrite (all_space_lstrip _ (all_space_rstrip_char _ _ H)).
Qed.

Lemma skipped_line_is_blank c :
  whitespace_only c \/ comment_only c -> is_blank c = true.
Proof.
  unfold is_blank, stripped_of, line_of.
  intros [H | (w & t & -> & H)].
  - apply all_space_blank, all_space_split1, H.
  - rewrite split1_no_sep by (now apply all_space_no_hash).
    now apply all_space_blank.
Qed.

Lemma blank_line_skipped st c : is_blank c = true -> parse_line st c = OK st.
Proof.
  unfold is_blank, stripped_of, parse_line. now intros ->.
Qed.

Lemma parse_lines_app lines1 lines2 : forall st,
  parse_lines st (lines1 ++ lines2)
  = (do st' <- parse_lines st lines1; parse_lines st' lines2).
Proof.
  induction lines1 as [|l lines1 IH]; simpl; intros st; [reflexivity|].
  destruct (parse_line st l); simpl; [apply IH | reflexivity].
Qed.

Lemma parse_lines_skip lines1 lines2 c st :
  is_blank c = true ->
  parse_lines st (lines1 ++ c :: lines2) = parse_lines st (lines1 ++ lines2).
Proof.
  intros H. rewrite !parse_lines_app.
  destruct (parse_lines st lines1) as [st'|]; simpl; [|reflexivity].
  now rewrite blank_line_skipped.
Qed.

Lemma parse_lines_skipped mid st :
  Forall (fun m => is_blank m = true) mid -> parse_lines st mid = OK st.
Proof.
  induction 1 as [|m mid Hm _ IH]; simpl; [reflexivity|].
  now rewrite blank_line_skipped.
Qed.

Lemma append_empty_r (s : string) : (s ++ EmptyString)%string = s.
Proof. induction s; simpl; congruence. Qed.

Lemma append_assoc (a b c : string) :
  ((a ++ b) ++ c)%string = (a ++ (b ++ c))%string.
Proof. induction a; simpl; congruence. Qed.

(** What [splitlines] does with a text cut after a line feed. *)
Lemma splitlines_aux_cut pre rest : forall cur after_cr,
  Str.splitlines_aux cur after_cr (pre ++ String Str.LF rest)
  = Str.splitlines_aux cur after_cr (pre ++ nl) ++ Str.splitlines rest.
Proof.
  induction pre as [|c pre IH]; intros cur after_cr.
  - unfold nl. simpl. destruct after_cr; reflexivity.
  - change (Str.splitlines_aux cur after_cr (String c pre ++ String Str.LF rest))
      with (if after_cr && Ascii.eqb c Str.LF
            then Str.splitlines_aux EmptyString false (pre ++ String Str.LF rest)
            else if Str.is_linebreak c
                 then cur :: Str.splitlines_aux EmptyString (Ascii.eqb c Str.CR)
                                (pre ++ String Str.LF rest)
                 else Str.splitlines_aux (cur ++ String c EmptyString) false
                        (pre ++ String Str.LF rest)).
    change (Str.splitlines_aux cur after_cr (String c pre ++ nl))
      with (if after_cr && Ascii.eqb c Str.LF
            then Str.splitlines_aux EmptyString false (pre ++ nl)
            else if Str.is_linebreak c
                 then cur :: Str.splitlines_aux EmptyString (Ascii.eqb c Str.CR)
                                (pre ++ nl)
                 else Str.splitlines_aux (cur ++ String c EmptyString) false
                        (pre ++ nl)).
    rewrite !IH.
    destruct (after_cr && Ascii.eqb c Str.LF); [reflexivity|].
    destruct (Str.is_linebreak c); reflexivity.
Qed.

(** What [splitlines] does with one line and its line feed. *)
Lemma splitlines_aux_line c rest : forall cur,
  one_line c = true ->
  Str.splitlines_aux cur false (c ++ String Str.LF rest)
  = (cur ++ c)%string :: Str.splitlines rest.
Proof.
  induction c as [|a c IH]; intros cur Hc.
  - rewrite append_empty_r. reflexivity.
  - simpl in Hc. apply andb_true_iff in Hc as [Ha Hc].
    apply negb_true_iff in Ha.
    change (Str.splitlines_aux cur false (String a c ++ String Str.LF rest))
      with (if Str.is_linebreak a
            then cur :: Str.splitlines_aux EmptyString (Ascii.eqb a Str.CR)
                          (c ++ String Str.LF rest)
            else Str.splitlines_aux (cur ++ String a EmptyString) false
                   (c ++ String Str.LF rest)).
    rewrite Ha, (IH _ Hc), append_assoc. reflexivity.
Qed.

(** ** One line, forwards *)

Lemma dict_at_lookup (h : store) l d :
  h !! l = Some (ODict d) -> dict_at h (VRef l) = Some d.
Proof. unfold dict_at. now intros ->. Qed.

Lemma list_at_lookup (h : store) l xs :
  h !! l = Some (OList xs) -> list_at h (VRef l) = Some xs.
Proof. unfold list_at. now intros ->. Qed.

Lemma dict_at_list (h : store) l xs :
  h !! l = Some (OList xs) -> dict_at h (VRef l) = None.
Proof. unfold dict_at. now intros ->. Qed.

Lemma setitem_lookup (h : store) l d k v :
  h !! l = Some (ODict d) ->
  setitem h (VRef l) k v = OK (<[l := ODict (dict_set k v d)]> h).
Proof. unfold setitem. now intros ->. Qed.

Lemma append_lookup (h : store) l xs v :
  h !! l = Some (OList xs) ->
  append h (VRef l) v = OK (<[l := OList (xs ++ [v])]> h).
Proof. unfold append. now intros ->. Qed.

Lemma getitem_lookup (h : store) l d k v :
  h !! l = Some (ODict d) -> dict_get k d = Some v ->
  getitem h (VRef l) k = OK v.
Proof. unfold getitem, dict_at. now intros -> ->. Qed.

Lemma lookup_insert_same (h : store) l o o' :
  h !! l = Some o -> <[l := o']> h !! l = Some o'.
Proof.
  intros H. apply list_lookup_insert_eq. eapply lookup_lt_Some; eassumption.
Qed.

Lemma lookup_alloc_old (h : store) l o o' :
  h !! l = Some o -> (h ++ [o']) !! l = Some o.
Proof.
  intros H. rewrite lookup_app_l; [assumption|].
  eapply lookup_lt_Some; eassumption.
Qed.

Lemma lookup_alloc_new (h : store) o : (h ++ [o]) !! length h = Some o.
Proof. rewrite lookup_app_r by lia. now rewrite Nat.sub_diag. Qed.

Lemma pop_frames_head ind fs f below :
  pop_frames ind fs = f :: below -> indent f <= ind.
Proof.
  induction fs as [|f' fs IH]; simpl; [discriminate|].
  destruct (Nat.ltb_spec ind (indent f')); [exact IH|].
  intros [= -> _]. assumption.
Qed.

Lemma pop_frames_keep ind f below :
  indent f <= ind -> pop_frames ind (f :: below) = f :: below.
Proof.
  intros H. simpl. destruct (Nat.ltb_spec ind (indent f)); [lia | reflexivity].
Qed.

Lemma enter_block_indent h frame ind stripped raw_line h' pushed :
  enter_block h frame ind stripped raw_line = OK (h', pushed) ->
  indent pushed = ind.
Proof.
  unfold enter_block. destruct (negb _); [discriminate|].
  intros H. apply bind_OK in H as ([h1 c] & _ & H). now injection H as _ <-.
Qed.

(** A line that is read without error: the frame it is read in stands at
    the indentation of the line. *)
Lemma parse_line_OK st raw_line st' :
  parse_line st raw_line = OK st' -> is_blank raw_line = false ->
  exists h1 frame1 open h2 frame2,
    indent frame1 = line_indent raw_line
    /\ line_indent raw_line mod 2 = 0
    /\ (if is_item (stripped_of raw_line)
        then item_line h1 frame1 (stripped_of raw_line) raw_line
        else mapping_line h1 frame1 (stripped_of raw_line) raw_line)
       = OK (h2, frame2)
    /\ st' = mkState h2 (frame2 :: open).
Proof.
  unfold is_blank, stripped_of, line_indent, parse_line.
  intros H Hblank. rewrite Hblank in H.
  destruct (Nat.eqb_spec (indent_of (line_of raw_line) mod 2) 0) as [Hev|];
    [|discriminate]. simpl in H.
  destruct (pop_frames _ (frames st)) as [|frame below] eqn:Hpop;
    [discriminate|].
  apply pop_frames_head in Hpop.
  apply bind_OK in H as ([[h1 frame1] open] & Henter & H).
  apply bind_OK in H as ([h2 frame2] & Hline & H).
  injection H as <-.
  exists h1, frame1, open, h2, frame2.
  split; [|split; [assumption | split; [assumption | reflexivity]]].
  destruct (Nat.ltb_spec (indent frame) (indent_of (line_of raw_line))).
  - apply bind_OK in Henter as ([h1' pushed] & He & Henter).
    injection Henter as <- <- <-. eapply enter_block_indent; eassumption.
  - injection Henter as <- <- <-. lia.
Qed.

Lemma mapping_line_eq h frame stripped raw_line :
  Str.contains ":" stripped = true ->
  mapping_line h frame stripped raw_line
  = (do v <- (if Str.is_empty (value_of stripped) then OK PENDING
              else parse_value (value_of stripped));
     do h1 <- setitem h (container frame) (key_of stripped) v;
     OK (h1, set_last_key frame (key_of stripped))).
Proof.
  unfold mapping_line, key_of, value_of. intros ->. simpl.
  now destruct (Str.split1 ":" stripped).
Qed.

Lemma mapping_line_OK h frame stripped raw_line h' frame' :
  mapping_line h frame stripped raw_line = OK (h', frame') ->
  exists l d v,
    Str.contains ":" stripped = true
    /\ (if Str.is_empty (value_of stripped) then OK PENDING
        else parse_value (value_of stripped)) = OK v
    /\ container frame = VRef l /\ h !! l = Some (ODict d)
    /\ h' = <[l := ODict (dict_set (key_of stripped) v d)]> h
    /\ frame' = set_last_key frame (key_of stripped).
Proof.
  intros H.
  destruct (Str.contains ":" stripped) eqn:Hc.
  2:{ unfold mapping_line in H. rewrite Hc in H. discriminate. }
  rewrite mapping_line_eq in H by assumption.
  apply bind_OK in H as (v & Hv & H).
  apply bind_OK in H as (h1 & Hset & H). injection H as <- <-.
  apply setitem_OK in Hset as (l & d & Hcont & Hl & ->).
  exists l, d, v. auto 10.
Qed.

Lemma dict_set_length k v d :
  dict_get k d <> None -> length (dict_set k v d) = length d.
Proof.
  induction d as [|[k' v'] d IH]; simpl; [congruence|].
  destruct (String.eqb k' k); simpl; auto.
Qed.

Lemma even_indent_step n : n mod 2 = 0 -> (n + 2) mod 2 = 0.
Proof.
  intros H. replace (n + 2) with (n + 1 * 2) by lia.
  now rewrite Nat.Div0.mod_add.
Qed.

Lemma contains_not_empty ch s : Str.contains ch s = true -> Str.is_empty s = false.
Proof. destruct s; [discriminate | reflexivity]. Qed.

Lemma item_target_dict h frame raw_line h1 cont d :
  item_target h frame raw_line = OK (h1, cont) ->
  dict_at h (container frame) = Some d ->
  exists l d', container frame = VRef l /\ h1 !! l = Some (ODict d').
Proof.
  unfold item_target, alloc. intros H Hd. rewrite Hd in H.
  apply dict_at_Some in Hd as (l & Hc & Hl).
  destruct (last_key frame) as [k|]; [|discriminate].
  apply bind_OK in H as (h1' & Hres & H).
  apply bind_OK in H as (c & _ & H). injection H as <- <-.
  exists l. destruct (get_is_PENDING d k).
  - rewrite Hc in Hres.
    rewrite (setitem_lookup _ _ d) in Hres by (eapply lookup_alloc_old; exact Hl).
    injection Hres as <-. eexists. split; [exact Hc|].
    eapply lookup_insert_same, lookup_alloc_old, Hl.
  - injection Hres as <-. eauto.
Qed.

(** A [- key...] line that is read without error. *)
Lemma item_line_key_OK h frame stripped raw_line h' frame' :
  item_line h frame stripped raw_line = OK (h', frame') ->
  Str.contains ":" (item_text_of stripped) = true ->
  exists h1 lseq xs v,
    item_target h frame raw_line = OK (h1, VRef lseq)
    /\ h1 !! lseq = Some (OList xs)
    /\ (if Str.is_empty (item_value stripped) then OK PENDING
        else parse_value (item_value stripped)) = OK v
    /\ h' = <[lseq := OList (xs ++ [VRef (length h1)])]>
              (h1 ++ [ODict [(item_key stripped, v)]])
    /\ frame' = set_last_key frame (item_key stripped).
Proof.
  unfold item_line, alloc, item_key, item_value, key_of, value_of.
  fold (item_text_of stripped). intros H Hc.
  apply bind_OK in H as ([h1 cont] & Htgt & H).
  destruct (list_at h1 cont) as [xs|] eqn:Hxs; [|discriminate].
  apply list_at_Some in Hxs as (lseq & -> & Hl).
  rewrite (contains_not_empty _ _ Hc), Hc in H.
  destruct (Str.split1 ":" (item_text_of stripped)) as [key0 rest].
  apply bind_OK in H as (v & Hv & H).
  rewrite (append_lookup _ _ xs) in H by (eapply lookup_alloc_old; exact Hl).
  injection H as <- <-.
  exists h1, lseq, xs, v. auto.
Qed.

Lemma frame_ok_holds_container h f : frame_ok h f -> holds_container h f.
Proof.
  intros (l & Hc & Hl). unfold holds_container, dict_at, list_at.
  rewrite Hc. apply lookup_lt_is_Some in Hl as [[d|xs] ->];
    [left | right]; discriminate.
Qed.

(** ** What later lines leave in place *)

Lemma keeps_refl h : keeps_dicts h h.
Proof. intros l d H. eauto. Qed.

Lemma keeps_trans h1 h2 h3 :
  keeps_dicts h1 h2 -> keeps_dicts h2 h3 -> keeps_dicts h1 h3.
Proof.
  intros H12 H23 l d H. destruct (H12 _ _ H) as (d2 & H2 & K2).
  destruct (H23 _ _ H2) as (d3 & H3 & K3). eauto.
Qed.

Lemma keeps_alloc (h : store) o : keeps_dicts h (h ++ [o]).
Proof. intros l d H. exists d. split; [eapply lookup_alloc_old, H | auto]. Qed.

Lemma dict_get_set_keeps k k' v d :
  dict_get k d <> None -> dict_get k (dict_set k' v d) <> None.
Proof.
  intros H. destruct (String.eqb_spec k' k) as [->|Hne].
  - rewrite dict_get_set_eq. discriminate.
  - now rewrite dict_get_set_ne.
Qed.

Lemma keeps_setitem (h : store) c k v h' :
  setitem h c k v = OK h' -> keeps_dicts h h'.
Proof.
  intros H. apply setitem_OK in H as (l & d & -> & Hl & ->). intros l' d' H'.
  destruct (decide (l = l')) as [<-|Hne].
  - rewrite Hl in H'. injection H' as <-. eexists.
    split; [eapply lookup_insert_same, Hl|].
    intros k'. apply dict_get_set_keeps.
  - exists d'. rewrite list_lookup_insert_ne by assumption. auto.
Qed.

Lemma keeps_insert_list (h : store) l xs ys :
  h !! l = Some (OList xs) -> keeps_dicts h (<[l := OList ys]> h).
Proof.
  intros Hl l' d' H'. exists d'. split; [|auto].
  rewrite list_lookup_insert_ne; [assumption | congruence].
Qed.

Lemma keeps_append (h : store) c v h' :
  append h c v = OK h' -> keeps_dicts h h'.
Proof.
  intros H. apply append_OK in H as (l & xs & -> & Hl & ->).
  eapply keeps_insert_list, Hl.
Qed.

Lemma keeps_set_last (h : store) c v h' :
  set_last h c v = OK h' -> keeps_dicts h h'.
Proof.
  intros H. apply set_last_OK in H as (l & xs & -> & Hl & ->).
  eapply keeps_insert_list, Hl.
Qed.

(** Chaining the steps of a successful run. *)
Ltac keeps_steps :=
  repeat match goal with
  | H : setitem _ _ _ _ = OK _ |- _ => apply keeps_setitem in H
  | H : append _ _ _ = OK _ |- _ => apply keeps_append in H
  | H : set_last _ _ _ = OK _ |- _ => apply keeps_set_last in H
  end;
  eauto 6 using keeps_refl, keeps_trans, keeps_alloc.

Lemma enter_block_keeps h frame ind stripped raw_line h' pushed :
  enter_block h frame ind stripped raw_line = OK (h', pushed) ->
  keeps_dicts h h'.
Proof. unfold enter_block, alloc. intros H. split_ok; keeps_steps. Qed.

Lemma item_line_keeps h frame stripped raw_line h' frame' :
  item_line h frame stripped raw_line = OK (h', frame') ->
  keeps_dicts h h' /\ indent frame' = indent frame
  /\ container frame' = container frame.
Proof.
  unfold item_line, item_target, alloc. intros H.
  split_ok; (split; [keeps_steps | split; reflexivity]).
Qed.

Lemma mapping_line_keeps h frame stripped raw_line h' frame' :
  mapping_line h frame stripped raw_line = OK (h', frame') ->
  keeps_dicts h h' /\ indent frame' = indent frame
  /\ container frame' = container frame.
Proof.
  unfold mapping_line. intros H.
  split_ok; (split; [keeps_steps | split; reflexivity]).
Qed.

Lemma pop_frames_open_at i c ind fs :
  open_at i c fs -> i <= ind -> open_at i c (pop_frames ind fs).
Proof.
  intros (above & f & below & -> & Hi & Hc & Habove) Hle.
  induction Habove as [|g above Hg Habove IH]; simpl.
  - destruct (Nat.ltb_spec ind (indent f)); [lia|].
    exists [], f, below. auto.
  - destruct (ind <? indent g); [exact IH|].
    exists (g :: above), f, below. auto.
Qed.

Lemma pop_frames_at i c fs :
  open_at i c fs ->
  exists f below, pop_frames i fs = f :: below
                  /\ indent f = i /\ container f = c.
Proof.
  intros (above & f & below & -> & Hi & Hc & Habove).
  induction Habove as [|g above Hg Habove IH]; simpl.
  - destruct (Nat.ltb_spec i (indent f)); [lia|]. eauto.
  - destruct (Nat.ltb_spec i (indent g)); [exact IH | lia].
Qed.

(** A line that does not dedent below [i] leaves that frame open and the
    dicts in place. *)
Lemma parse_line_within i c st m st' :
  open_at i c (frames st) ->
  is_blank m = true \/ i <= line_indent m ->
  parse_line st m = OK st' ->
  open_at i c (frames st') /\ keeps_dicts (heap st) (heap st').
Proof.
  intros Hopen Hm H.
  destruct (is_blank m) eqn:Hb.
  { rewrite blank_line_skipped in H by assumption. injection H as <-.
    split; [assumption | apply keeps_refl]. }
  destruct Hm as [Hm|Hle]; [discriminate|].
  apply (pop_frames_open_at _ _ _ _ Hopen) in Hle as Hpop.
  revert H. unfold parse_line. fold (stripped_of m). fold (is_blank m).
  fold (line_indent m). rewrite Hb.
  destruct (negb _); [discriminate|].
  destruct (pop_frames _ (frames st)) as [|frame rest] eqn:Epop;
    [discriminate|].
  intros H.
  apply bind_OK in H as ([[h1 frame1] open] & Henter & H).
  apply bind_OK in H as ([h2 frame2] & Hline & H).
  injection H as <-. cbn [frames heap].
  assert (Hsame : keeps_dicts h1 h2 /\ indent frame2 = indent frame1
                  /\ container frame2 = container frame1).
  { destruct (is_item _);
      [eapply item_line_keeps | eapply mapping_line_keeps]; eassumption. }
  destruct Hsame as (Hk2 & Hi2 & Hc2).
  destruct Hpop as (above & f & below & Hfs & Hi & Hc & Habove).
  assert (Htop : i <= indent frame).
  { destruct above as [|g above']; simpl in Hfs; injection Hfs as -> _;
      [lia | inversion Habove; lia]. }
  destruct (Nat.ltb_spec (indent frame) (line_indent m)) as [Hlt|Hge].
  - (* a block is entered: the popped stack stays under the new frame *)
    apply bind_OK in Henter as ([h1' pushed] & He & Henter).
    injection Henter as <- <- <-.
    split; [|eapply keeps_trans; [eapply enter_block_keeps|]; eassumption].
    apply enter_block_indent in He.
    exists (frame2 :: above), f, below. rewrite Hfs.
    split; [reflexivity | split; [assumption | split; [assumption|]]].
    constructor; [lia | assumption].
  - injection Henter as <- <- <-. split; [|assumption].
    destruct above as [|g above]; simpl in Hfs; injection Hfs as -> ->.
    + exists [], frame2, below. split; [reflexivity|].
      split; [congruence | split; [congruence | constructor]].
    + apply Forall_cons in Habove as [Hg Habove].
      exists (frame2 :: above), f, below. split; [reflexivity|].
      split; [assumption | split; [assumption|]].
      constructor; [lia | assumption].
Qed.

Lemma parse_lines_within i c mid : forall st st',
  open_at i c (frames st) ->
  Forall (fun m => is_blank m = true \/ i <= line_indent m) mid ->
  parse_lines st mid = OK st' ->
  open_at i c (frames st') /\ keeps_dicts (heap st) (heap st').
Proof.
  induction mid as [|m mid IH]; simpl; intros st st' Hopen Hmid H.
  - injection H as <-. split; [assumption | apply keeps_refl].
  - apply bind_OK in H as (st1 & H1 & H).
    inversion Hmid as [|? ? Hm Hmid']; subst.
    destruct (parse_line_within _ _ _ _ _ Hopen Hm H1) as [Hopen1 Hk1].
    destruct (IH _ _ Hopen1 Hmid' H) as [Hopen' Hk'].
    split; [assumption | eapply keeps_trans; eassumption].
Qed.

(** * The claims *)

(** ** C1: what a pending key becomes *)

(** C1.  After a bare [key:] line, the key holds [PENDING] in the dict of
    the frame on top; skipped lines change nothing; the next line that is
    read, two columns deeper, stays in that frame, and entering its block
    stores under the key a new object, which is an empty list when the
    line starts with [- ] and an empty dict when it does not.  Nothing
    but that line decides the kind: [a:] followed by [  - 1] gives a
    sequence, followed by [  b: 1] a mapping. *)
Theorem pending_resolved_by_first_child :
  (forall st l1 mid l2 st1,
      is_blank l1 = false -> is_item (stripped_of l1) = false ->
      Str.is_empty (value_of (stripped_of l1)) = true ->
      Forall (fun m => is_blank m = true) mid ->
      is_blank l2 = false -> line_indent l2 = line_indent l1 + 2 ->
      parse_line st l1 = OK st1 ->
      exists parent below l d,
        parse_lines st1 mid = OK st1
        /\ frames st1 = parent :: below /\ container parent = VRef l
        /\ heap st1 !! l = Some (ODict d)
        /\ last_key parent = Some (key_of (stripped_of l1))
        /\ dict_get (key_of (stripped_of l1)) d = Some PENDING
        /\ pop_frames (line_indent l2) (frames st1) = parent :: below
        /\ indent parent < line_indent l2
        /\ enter_block (heap st1) parent (line_indent l2) (stripped_of l2) l2
           = OK (<[l := ODict (dict_set (key_of (stripped_of l1))
                                 (VRef (length (heap st1))) d)]>
                   (heap st1 ++ [resolved_by (stripped_of l2)]),
                 mkFrame (line_indent l2) (VRef (length (heap st1))) None))
  /\ parse_yaml child_item_text = OK (Mapping [("a", Sequence [Integer 1])])
  /\ parse_yaml child_key_text
     = OK (Mapping [("a", Mapping [("b", Integer 1)])]).
Proof.
  split; [|split; vm_compute; reflexivity].
  intros st l1 mid l2 st1 Hb1 Hi1 Hv1 Hmid Hb2 Hind H1.
  apply parse_line_OK in H1 as (h1 & f1 & open & h2 & f2 & Hf1 & Hev & Hl1 & ->);
    [|assumption].
  rewrite Hi1 in Hl1.
  apply mapping_line_OK in Hl1 as (l & d & v1 & _ & Hv & Hc & Hl & -> & ->).
  rewrite Hv1 in Hv. injection Hv as <-.
  set (key := key_of (stripped_of l1)) in *.
  set (d1 := dict_set key PENDING d).
  pose proof (lookup_insert_same _ _ _ (ODict d1) Hl) as Hl'.
  exists (set_last_key f1 key), open, l, d1.
  cbn [frames heap].
  assert (Hi : indent (set_last_key f1 key) = line_indent l1) by exact Hf1.
  split; [now apply parse_lines_skipped|].
  split; [reflexivity|]. split; [exact Hc|]. split; [exact Hl'|].
  split; [reflexivity|]. split; [apply dict_get_set_eq|].
  split; [apply pop_frames_keep; lia|]. split; [lia|].
  unfold enter_block, alloc. rewrite Hi, Hind, Nat.eqb_refl.
  cbn [negb].
  replace (container (set_last_key f1 key)) with (VRef l) by (symmetry; exact Hc).
  rewrite (dict_at_lookup _ _ _ Hl').
  cbn [last_key set_last_key].
  unfold get_is_PENDING, d1. rewrite dict_get_set_eq. fold d1.
  fold (resolved_by (stripped_of l2)).
  rewrite (setitem_lookup _ _ d1) by (eapply lookup_alloc_old; exact Hl').
  cbn [bind].
  erewrite getitem_lookup.
  - reflexivity.
  - eapply lookup_insert_same, lookup_alloc_old, Hl'.
  - apply dict_get_set_eq.
Qed.

Lemma pending_resolved_by_first_child_witness :
  exists parent below l d,
    parse_lines after_bare_key
      ["  # the items"]
    = OK after_bare_key
    /\ frames after_bare_key
    = parent :: below /\ container parent = VRef l
    /\ heap after_bare_key !! l = Some (ODict d)
    /\ last_key parent = Some (key_of (stripped_of "a:"))
    /\ dict_get (key_of (stripped_of "a:")) d = Some PENDING
    /\ pop_frames (line_indent "  - 1")
         (frames after_bare_key)
       = parent :: below
    /\ indent parent < line_indent "  - 1"
    /\ enter_block (heap after_bare_key) parent (line_indent "  - 1")
         (stripped_of "  - 1") "  - 1"
       = OK (<[l := ODict (dict_set (key_of (stripped_of "a:"))
                             (VRef (length (heap after_bare_key))) d)]>
               (heap after_bare_key ++ [resolved_by (stripped_of "  - 1")]),
             mkFrame (line_indent "  - 1")
               (VRef (length (heap after_bare_key))) None).
Proof.
  apply (proj1 pending_resolved_by_first_child initial "a:"
           ["  # the items"] "  - 1"
           after_bare_key);
    try reflexivity.
  repeat constructor.
Defined.

(** ** C2: a [#] inside quotes *)

(** C2, as stated, fails: the value of [key: "a#b"] is cut at the [#]. *)
Lemma quoted_hash_is_cut :
  parse_yaml quoted_hash_text <> OK (Mapping [("key", String_ "a#b")]).
Proof. vm_compute. discriminate. Qed.

(** C2, amended.  The comment starts at the first [#] of the line, in
    quotes or not: what the loop keeps of [a#b] is [a] when [a] has no
    [#]; the line [key: "a#b"] binds [key] to the string of the two
    characters double quote and [a]. *)
Theorem comment_starts_at_first_hash :
  (forall a b, Str.contains "#" a = false ->
               line_of (a ++ String "#" b) = Str.rstrip_char Str.LF a)
  /\ parse_yaml quoted_hash_text
     = OK (Mapping [("key", String_ (String Str.DQUOTE "a"))]).
Proof.
  split; [|vm_compute; reflexivity].
  intros a b Ha. unfold line_of. now rewrite split1_no_sep.
Qed.

Lemma comment_starts_at_first_hash_witness :
  line_of ("key: " ++ String Str.DQUOTE "a" ++ String "#" "b")
  = Str.rstrip_char Str.LF ("key: " ++ String Str.DQUOTE "a").
Proof.
  apply (proj1 comment_starts_at_first_hash
           ("key: " ++ String Str.DQUOTE "a")%string "b").
  reflexivity.
Defined.

(** ** C3: a list item that is a bare key *)

(** C3, as stated, fails: the line two columns deeper than [- key:] does
    not go under [key]. *)
Lemma bare_item_key_gets_no_child :
  parse_yaml bare_item_text
  <> OK (Mapping
           [("items",
             Sequence [Mapping [("key", Mapping [("sub", Integer 1)])]])]).
Proof. vm_compute. discriminate. Qed.

(** C3, amended.  A [- key:] line with nothing after the colon appends
    the dict [{key: PENDING}] to the sequence and sets [last_key] of the
    frame to the key.  When that frame holds the sequence itself, the
    next [k: v] line that is read, two columns deeper, opens a frame on
    the appended dict and writes [k] into it, beside [key], which stays
    pending (and ends as an empty mapping): [- key:] followed by [sub: 1]
    under [items:] parses to [{items: [{key: {}, sub: 1}]}]. *)
Theorem bare_item_key_gets_sibling :
  (forall st l1 st1,
      is_blank l1 = false -> is_item (stripped_of l1) = true ->
      Str.contains ":" (item_text_of (stripped_of l1)) = true ->
      Str.is_empty (item_value (stripped_of l1)) = true ->
      parse_line st l1 = OK st1 ->
      exists top below lseq before item,
        frames st1 = top :: below
        /\ last_key top = Some (item_key (stripped_of l1))
        /\ heap st1 !! lseq = Some (OList (before ++ [VRef item]))
        /\ heap st1 !! item
           = Some (ODict [(item_key (stripped_of l1), PENDING)]))
  /\ (forall st l1 mid l2 st1 top below items,
      is_blank l1 = false -> is_item (stripped_of l1) = true ->
      Str.contains ":" (item_text_of (stripped_of l1)) = true ->
      Str.is_empty (item_value (stripped_of l1)) = true ->
      parse_line st l1 = OK st1 ->
      frames st1 = top :: below ->
      list_at (heap st1) (container top) = Some items ->
      Forall (fun m => is_blank m = true) mid ->
      is_blank l2 = false -> is_item (stripped_of l2) = false ->
      Str.contains ":" (stripped_of l2) = true ->
      Str.is_empty (value_of (stripped_of l2)) = false ->
      line_indent l2 = line_indent l1 + 2 ->
      exists before item v2,
        parse_lines st1 mid = OK st1
        /\ items = before ++ [VRef item]
        /\ heap st1 !! item
           = Some (ODict [(item_key (stripped_of l1), PENDING)])
        /\ last_key top = Some (item_key (stripped_of l1))
        /\ parse_value (value_of (stripped_of l2)) = OK v2
        /\ parse_line st1 l2
           = OK (mkState
                   (<[item := ODict (dict_set (key_of (stripped_of l2)) v2
                                       [(item_key (stripped_of l1), PENDING)])]>
                      (heap st1))
                   (mkFrame (line_indent l2) (VRef item)
                      (Some (key_of (stripped_of l2))) :: top :: below)))
  /\ parse_yaml bare_item_text
     = OK (Mapping
             [("items",
               Sequence [Mapping [("key", Mapping []);
                                  ("sub", Integer 1)]])]).
Proof.
  split; [|split; [|vm_compute; reflexivity]].
  { intros st l1 st1 Hb1 Hi1 Hc1 Hv1 H1.
    apply parse_line_OK in H1
      as (h0 & f1 & open & h2 & f2 & Hf1 & Hev & Hl1 & ->); [|assumption].
    rewrite Hi1 in Hl1.
    apply item_line_key_OK in Hl1
      as (h1 & lseq & xs & v & Htgt & Hl & Hv & -> & ->); [|assumption].
    rewrite Hv1 in Hv. injection Hv as <-.
    exists (set_last_key f1 (item_key (stripped_of l1))), open, lseq, xs,
      (length h1).
    cbn [frames heap]. split; [reflexivity|]. split; [reflexivity|]. split.
    - eapply lookup_insert_same, lookup_alloc_old, Hl.
    - apply lookup_lt_Some in Hl.
      rewrite list_lookup_insert_ne by lia. apply lookup_alloc_new. }
  intros st l1 mid l2 st1 top below items Hb1 Hi1 Hc1 Hv1 H1 Hfs Hitems
         Hmid Hb2 Hi2 Hc2 Hv2 Hind.
  apply parse_line_OK in H1 as (h0 & f1 & open & h2 & f2 & Hf1 & Hev & Hl1 & ->);
    [|assumption].
  rewrite Hi1 in Hl1. cbn [frames heap] in *. injection Hfs as -> ->.
  apply item_line_key_OK in Hl1
    as (h1 & lseq & xs & v & Htgt & Hl & Hv & -> & ->); [|assumption].
  rewrite Hv1 in Hv. injection Hv as <-.
  set (key := item_key (stripped_of l1)) in *.
  set (item := length h1) in *.
  set (h' := <[lseq := OList (xs ++ [VRef item])]> (h1 ++ [ODict [(key, PENDING)]]))
    in *.
  assert (Hlt : lseq < item) by (eapply lookup_lt_Some; exact Hl).
  assert (Hseq : h' !! lseq = Some (OList (xs ++ [VRef item]))).
  { eapply lookup_insert_same, lookup_alloc_old, Hl. }
  assert (Hitem : h' !! item = Some (ODict [(key, PENDING)])).
  { unfold h'. rewrite list_lookup_insert_ne by lia. apply lookup_alloc_new. }
  (* the frame holds the sequence, not a dict with the sequence under a key *)
  assert (Hcont : container f1 = VRef lseq).
  { destruct (dict_at h0 (container f1)) as [d|] eqn:Hd.
    - exfalso.
      destruct (item_target_dict _ _ _ _ _ _ Htgt Hd) as (l & d' & Hc & Hld).
      cbn [container set_last_key] in Hitems. rewrite Hc in Hitems.
      assert (l <> lseq) by congruence.
      assert (h' !! l = Some (ODict d')) as Hd'.
      { unfold h'. rewrite list_lookup_insert_ne by congruence.
        eapply lookup_alloc_old, Hld. }
      unfold list_at in Hitems. now rewrite Hd' in Hitems.
    - unfold item_target in Htgt. rewrite Hd in Htgt. now injection Htgt. }
  cbn [container set_last_key] in Hitems.
  rewrite Hcont, (list_at_lookup _ _ _ Hseq) in Hitems. injection Hitems as <-.
  destruct (parse_value_scalar (value_of (stripped_of l2))) as (v2 & Hp & _).
  exists xs, item, v2.
  split; [now apply parse_lines_skipped|].
  split; [reflexivity|]. split; [exact Hitem|]. split; [reflexivity|].
  split; [exact Hp|].
  unfold parse_line. fold (stripped_of l2). fold (is_blank l2).
  fold (line_indent l2). rewrite Hb2.
  replace (line_indent l2 mod 2 =? 0) with true
    by (symmetry; apply Nat.eqb_eq; rewrite Hind;
        now apply even_indent_step).
  cbn [negb frames heap].
  rewrite pop_frames_keep by (simpl; lia).
  replace (indent (set_last_key f1 key) <? line_indent l2) with true
    by (symmetry; apply Nat.ltb_lt; simpl; lia).
  unfold enter_block.
  replace (line_indent l2 =? indent (set_last_key f1 key) + 2) with true
    by (symmetry; apply Nat.eqb_eq; simpl; lia).
  cbn [negb container set_last_key]. rewrite Hcont.
  rewrite (dict_at_list _ _ _ Hseq), (list_at_lookup _ _ _ Hseq).
  rewrite last_snoc. cbn [is_PENDING bind].
  rewrite Hi2, mapping_line_eq by assumption.
  rewrite Hv2, Hp. cbn [bind container].
  rewrite (setitem_lookup _ _ _ _ _ Hitem). reflexivity.
Qed.

Lemma bare_item_key_gets_sibling_witness :
  exists before item v2,
    parse_lines after_bare_item [EmptyString] = OK after_bare_item
    /\ [VRef 2] = before ++ [VRef item]
    /\ heap after_bare_item !! item
       = Some (ODict [(item_key (stripped_of "  - key:"), PENDING)])
    /\ last_key (mkFrame 2 (VRef 1) (Some "key"))
       = Some (item_key (stripped_of "  - key:"))
    /\ parse_value (value_of (stripped_of "    sub: 1")) = OK v2
    /\ parse_line after_bare_item "    sub: 1"
       = OK (mkState
               (<[item := ODict (dict_set (key_of (stripped_of "    sub: 1")) v2
                                   [(item_key (stripped_of "  - key:"), PENDING)])]>
                  (heap after_bare_item))
               (mkFrame (line_indent "    sub: 1") (VRef item)
                  (Some (key_of (stripped_of "    sub: 1")))
                :: mkFrame 2 (VRef 1) (Some "key")
                :: [mkFrame 0 root (Some "items")])).
Proof.
  apply (proj1 (proj2 bare_item_key_gets_sibling) after_items "  - key:"
           [EmptyString]
           "    sub: 1" after_bare_item (mkFrame 2 (VRef 1) (Some "key"))
           [mkFrame 0 root (Some "items")] [VRef 2]);
    try reflexivity.
  repeat constructor.
Defined.

(** ** C4: a list item with a second key *)

(** C4.  The three lines [devices:], [  - name: kitchen] and
    [    hostname: 10.0.0.5] parse to one device with both keys: the
    third line adds its key to the mapping the [- ] line began. *)
Theorem devices_example :
  parse_yaml ("devices:" ++ nl ++ "  - name: kitchen" ++ nl
              ++ "    hostname: 10.0.0.5" ++ nl)
  = OK (Mapping
          [("devices",
            Sequence [Mapping [("name", String_ "kitchen");
                               ("hostname", String_ "10.0.0.5")]])]).
Proof. vm_compute. reflexivity. Qed.

(** ** C5: nothing pending survives finalize *)

(** C5.  The tree [parse_yaml] returns holds no [Pending]: [finalize]
    turns a pending key or item into an empty mapping and hands scalars on
    as they are, and it always gets through the tree (the depth bound of
    the model is never reached); the text of the one line [a:] parses to
    [{a: {}}]. *)
Theorem finalized_tree_has_no_Pending :
  (forall text t, parse_yaml text = OK t -> no_Pending t = true)
  /\ (forall text, parse_yaml text <> Err DepthExceeded)
  /\ (forall h depth, finalize h (S depth) PENDING = Some (Mapping []))
  /\ (forall h depth s n b lit,
        finalize h (S depth) (VStr s) = Some (String_ s)
        /\ finalize h (S depth) (VInt n) = Some (Integer n)
        /\ finalize h (S depth) (VBool b) = Some (Boolean b)
        /\ finalize h (S depth) (VFloat lit) = Some (Float lit)
        /\ finalize h (S depth) VNone = Some Null)
  /\ parse_yaml ("a:" ++ nl) = OK (Mapping [("a", Mapping [])]).
Proof.
  split; [|split; [|split; [|split]]].
  - intros text t. unfold parse_yaml. intros H.
    apply bind_OK in H as (st & _ & H).
    destruct (finalize _ _ root) as [t'|] eqn:E; [|discriminate].
    injection H as <-. eapply finalize_no_Pending; eassumption.
  - exact parse_yaml_depth.
  - reflexivity.
  - intros. repeat split.
  - vm_compute. reflexivity.
Qed.

Lemma finalized_tree_has_no_Pending_witness :
  no_Pending (Mapping [("a", Mapping [])]) = true.
Proof.
  apply (proj1 finalized_tree_has_no_Pending ("a:" ++ nl)%string).
  vm_compute. reflexivity.
Defined.

(** ** C6: an indentation step other than two columns *)

(** C6.  A line that is not skipped, has an even indentation, and is
    deeper than the frame left on top by the dedent, but not by exactly
    two columns, stops the parse with "Invalid indentation level"; so does
    the second line of [a:] followed by [    b: 1]. *)
Theorem indent_jump_rejected :
  (forall st raw_line frame below,
      is_blank raw_line = false ->
      line_indent raw_line mod 2 = 0 ->
      pop_frames (line_indent raw_line) (frames st) = frame :: below ->
      indent frame < line_indent raw_line ->
      line_indent raw_line <> indent frame + 2 ->
      parse_line st raw_line = Err (InvalidIndentLevel raw_line))
  /\ parse_yaml ("a:" ++ nl ++ "    b: 1" ++ nl)
     = Err (InvalidIndentLevel "    b: 1").
Proof.
  split; [|vm_compute; reflexivity].
  unfold is_blank, stripped_of, line_indent, parse_line.
  intros st raw_line frame below Hblank Heven Hpop Hlt Hne.
  rewrite Hblank, Heven, Hpop. simpl.
  destruct (Nat.ltb_spec (indent frame) (indent_of (line_of raw_line)));
    [|lia].
  unfold enter_block.
  destruct (Nat.eqb_spec (indent_of (line_of raw_line)) (indent frame + 2));
    [contradiction | reflexivity].
Qed.

Lemma indent_jump_rejected_witness :
  parse_line initial "    b: 1" = Err (InvalidIndentLevel "    b: 1").
Proof.
  apply (proj1 indent_jump_rejected initial "    b: 1"
           (mkFrame 0 root None) []).
  - reflexivity.
  - reflexivity.
  - reflexivity.
  - vm_compute. lia.
  - vm_compute. lia.
Defined.

(** ** C7: the scalar lexer never fails *)

(** C7.  [parse_value] returns a value for every token, and a token that
    is not wrapped in quotes, is none of the words true, false, null, none
    in any letter case, and is rejected by [float] (when it has a dot) or
    by [int] (when it has none), comes back as the string itself. *)
Theorem parse_value_total_default_string (raw : string) :
  (exists v, parse_value raw = OK v)
  /\ (quoted_by Str.DQUOTE raw = false ->
      quoted_by "'" raw = false ->
      ~ In (Str.lower raw) literal_words ->
      (if Str.contains "." raw
       then exists e, py_float raw = Err e
       else exists e, py_int raw = Err e) ->
      parse_value raw = OK (VStr raw)).
Proof.
  split.
  - destruct (parse_value_scalar raw) as (v & Hv & _). eauto.
  - intros Hq1 Hq2 Hw Hnum. unfold parse_value. rewrite Hq1, Hq2.
    assert (Hne : forall w, In w literal_words ->
                            String.eqb (Str.lower raw) w = false).
    { intros w Hin. destruct (String.eqb (Str.lower raw) w) eqn:E; auto.
      apply String.eqb_eq in E. subst w. contradiction. }
    rewrite !Hne by (simpl; auto 6). simpl.
    destruct (Str.contains "." raw).
    + destruct Hnum as [e He].
      destruct (py_float_result raw) as [H | H]; rewrite H in *;
        [discriminate | reflexivity].
    + destruct Hnum as [e He].
      destruct (py_int_result raw) as [[n H] | H]; rewrite H in *;
        [discriminate | reflexivity].
Qed.

Lemma parse_value_total_default_string_witness :
  parse_value "10.0.0.5" = OK (VStr "10.0.0.5").
Proof.
  apply (proj2 (parse_value_total_default_string "10.0.0.5")).
  - reflexivity.
  - reflexivity.
  - simpl. intros [H | [H | [H | [H | []]]]]; discriminate H.
  - simpl. exists (InvalidLiteral "10.0.0.5"). reflexivity.
Defined.

(** ** C8: comment lines and blank lines *)

(** C8.  A line that holds only white space, or only white space and
    then a comment, changes nothing wherever it is put: not in the list
    of lines the loop reads, and not in the text, put at the start or
    after any line feed.  The outcome is the same tree or the same
    error. *)
Theorem skipped_line_invariance :
  forall c, whitespace_only c \/ comment_only c ->
    (forall st lines1 lines2,
        parse_lines st (lines1 ++ c :: lines2)
        = parse_lines st (lines1 ++ lines2))
    /\ (one_line c = true ->
        forall pre post,
          parse_yaml (pre ++ nl ++ c ++ nl ++ post)
          = parse_yaml (pre ++ nl ++ post)
          /\ parse_yaml (c ++ nl ++ post) = parse_yaml post).
Proof.
  intros c Hc. apply skipped_line_is_blank in Hc. split.
  - intros st lines1 lines2. now apply parse_lines_skip.
  - intros Hline pre post. unfold parse_yaml, Str.splitlines, nl. split.
    + change (pre ++ String Str.LF EmptyString ++ c ++ String Str.LF EmptyString ++ post)%string
        with (pre ++ String Str.LF (c ++ String Str.LF post))%string.
      change (pre ++ String Str.LF EmptyString ++ post)%string
        with (pre ++ String Str.LF post)%string.
      rewrite !splitlines_aux_cut. unfold Str.splitlines.
      rewrite (splitlines_aux_line _ _ _ Hline). simpl (EmptyString ++ c)%string.
      now rewrite parse_lines_skip.
    + change (c ++ String Str.LF EmptyString ++ post)%string
        with (c ++ String Str.LF post)%string.
      rewrite (splitlines_aux_line _ _ _ Hline). simpl (EmptyString ++ c)%string.
      simpl. now rewrite blank_line_skipped.
Qed.

Lemma skipped_line_invariance_witness :
  parse_yaml ("a: 1" ++ nl ++ "  # note" ++ nl ++ "b: 2")
  = parse_yaml ("a: 1" ++ nl ++ "b: 2").
Proof.
  apply (proj2 (skipped_line_invariance "  # note"
                  (or_intror (ex_intro _ "  "%string
                                (ex_intro _ " note"%string
                                   (conj eq_refl eq_refl)))))
               eq_refl "a: 1"%string "b: 2"%string).
Defined.

(** ** C9: the "Unsupported container" branch is dead *)

(** C9.  "Unsupported container at indent" is never raised: after any
    lines read without error every open frame holds a dict or a list, a
    frame pushed around anything else makes the line that pushed it fail,
    so the next line cannot reach that branch; [parse_yaml] never returns
    that error. *)
Theorem unsupported_container_unreachable :
  (forall lines st raw_line r,
      parse_lines initial lines = OK st ->
      Forall (holds_container (heap st)) (frames st)
      /\ parse_line st raw_line <> Err (UnsupportedContainer r))
  /\ (forall text r, parse_yaml text <> Err (UnsupportedContainer r)).
Proof.
  split.
  - intros lines st raw_line r H.
    apply parse_lines_invariant in H; [|apply initial_invariant].
    split.
    + destruct H as (_ & Hfs & _).
      eapply Forall_impl; [exact Hfs|]. apply frame_ok_holds_container.
    + intros He. apply parse_line_Err in He; [exact He | exact H].
  - intros text r. unfold parse_yaml.
    destruct (parse_lines initial (Str.splitlines text)) as [st|e] eqn:E;
      unfold bind.
    + destruct (finalize _ _ root); discriminate.
    + apply parse_lines_Err in E; [|apply initial_invariant].
      intros [= ->]. exact E.
Qed.

Lemma unsupported_container_unreachable_witness :
  Forall (holds_container (heap after_a1)) (frames after_a1)
  /\ parse_line after_a1 "  b: 2" <> Err (UnsupportedContainer "  b: 2").
Proof.
  apply (proj1 unsupported_container_unreachable ["a: 1"] after_a1
           "  b: 2" "  b: 2").
  vm_compute. reflexivity.
Defined.

(** ** C10: a key written twice *)

(** C10.  Two [key: value] lines with the same key at the same
    indentation, and between them only lines that are skipped or stand
    at least as deep, so that the mapping of the first line is still
    open: when all lines before it are read without error, the second
    line is read without error too (no error about a repeated key
    exists), and it binds the key, in the entry that the mapping already
    has for it, to its own value.  [a: 1] then [a: 2] parses to [{a: 2}],
    also with a nested block between the two. *)
Theorem duplicate_key_last_wins :
  (forall st l1 mid l2 st1 stm,
      is_blank l1 = false -> is_item (stripped_of l1) = false ->
      parse_line st l1 = OK st1 ->
      Forall (fun m => is_blank m = true \/ line_indent l1 <= line_indent m)
             mid ->
      parse_lines st1 mid = OK stm ->
      is_blank l2 = false -> is_item (stripped_of l2) = false ->
      Str.contains ":" (stripped_of l2) = true ->
      Str.is_empty (value_of (stripped_of l2)) = false ->
      key_of (stripped_of l2) = key_of (stripped_of l1) ->
      line_indent l2 = line_indent l1 ->
      exists top below l d v2 st2,
        frames st1 = top :: below /\ container top = VRef l
        /\ heap stm !! l = Some (ODict d)
        /\ dict_get (key_of (stripped_of l1)) d <> None
        /\ parse_value (value_of (stripped_of l2)) = OK v2
        /\ parse_line stm l2 = OK st2
        /\ heap st2
           = <[l := ODict (dict_set (key_of (stripped_of l2)) v2 d)]> (heap stm)
        /\ dict_get (key_of (stripped_of l2))
             (dict_set (key_of (stripped_of l2)) v2 d) = Some v2
        /\ length (dict_set (key_of (stripped_of l2)) v2 d) = length d)
  /\ parse_yaml twice_text = OK (Mapping [("a", Integer 2)])
  /\ parse_yaml twice_apart_text
     = OK (Mapping [("a", Integer 2); ("b", Mapping [("c", Integer 3)])]).
Proof.
  split; [|split; vm_compute; reflexivity].
  intros st l1 mid l2 st1 stm Hb1 Hi1 H1 Hmid Hm Hb2 Hi2 Hc2 Hv2 Hkey Hind.
  apply parse_line_OK in H1 as (h1 & f1 & open & h2 & f2 & Hf1 & Hev & Hl1 & ->);
    [|assumption].
  rewrite Hi1 in Hl1.
  apply mapping_line_OK in Hl1 as (l & d0 & v1 & _ & _ & Hc & Hl & -> & ->).
  set (key := key_of (stripped_of l1)) in *.
  set (st1 := mkState (<[l := ODict (dict_set key v1 d0)]> h1)
                      (set_last_key f1 key :: open)) in *.
  assert (Hopen : open_at (line_indent l1) (VRef l) (frames st1)).
  { exists [], (set_last_key f1 key), open. simpl. auto. }
  destruct (parse_lines_within _ _ _ _ _ Hopen Hmid Hm) as [Hopen' Hkeeps].
  destruct (Hkeeps l (dict_set key v1 d0)) as (d & Hd & Hkeys).
  { eapply lookup_insert_same, Hl. }
  specialize (Hkeys key). rewrite dict_get_set_eq in Hkeys.
  specialize (Hkeys ltac:(discriminate)).
  destruct (pop_frames_at _ _ _ Hopen') as (f & below & Hpop & Hfi & Hfc).
  destruct (parse_value_scalar (value_of (stripped_of l2))) as (v2 & Hp & _).
  exists (set_last_key f1 key), open, l, d, v2,
    (mkState (<[l := ODict (dict_set (key_of (stripped_of l2)) v2 d)]> (heap stm))
             (set_last_key f (key_of (stripped_of l2)) :: below)).
  cbn [frames].
  split; [reflexivity|]. split; [exact Hc|]. split; [exact Hd|].
  split; [exact Hkeys|]. split; [exact Hp|].
  split; [|split; [reflexivity|]].
  - unfold parse_line. fold (stripped_of l2). fold (is_blank l2).
    fold (line_indent l2). rewrite Hb2, Hind, Hev, Hpop, Hfi.
    cbn [negb Nat.eqb]. rewrite Nat.ltb_irrefl.
    cbn [bind]. rewrite Hi2, mapping_line_eq by assumption.
    rewrite Hv2, Hp. cbn [bind]. rewrite Hfc.
    rewrite (setitem_lookup _ _ _ _ _ Hd). reflexivity.
  - split; [apply dict_get_set_eq|].
    apply dict_set_length. now rewrite Hkey.
Qed.

Lemma duplicate_key_last_wins_witness :
  exists top below l d v2 st2,
    frames after_a1 = top :: below /\ container top = VRef l
    /\ heap after_a1_block !! l = Some (ODict d)
    /\ dict_get (key_of (stripped_of "a: 1")) d <> None
    /\ parse_value (value_of (stripped_of "a: 2")) = OK v2
    /\ parse_line after_a1_block "a: 2" = OK st2
    /\ heap st2
       = <[l := ODict (dict_set (key_of (stripped_of "a: 2")) v2 d)]>
           (heap after_a1_block)
    /\ dict_get (key_of (stripped_of "a: 2"))
         (dict_set (key_of (stripped_of "a: 2")) v2 d) = Some v2
    /\ length (dict_set (key_of (stripped_of "a: 2")) v2 d) = length d.
Proof.
  apply (proj1 duplicate_key_last_wins initial "a: 1" ["b:"; "  c: 3"] "a: 2"
           after_a1 after_a1_block); try reflexivity.
  repeat constructor; right; vm_compute; lia.
Defined.

(** * More of the reader *)

(** ** The errors of each part of the loop body *)

Lemma enter_block_errors h frame ind stripped raw_line e :
  enter_block h frame ind stripped raw_line = Err e -> block_error e.
Proof. unfold enter_block, alloc. intros H. split_err; exact I. Qed.

Lemma item_line_errors h frame stripped raw_line e :
  item_line h frame stripped raw_line = Err e -> item_error e.
Proof.
  unfold item_line, item_target, alloc. intros H. split_err; exact I.
Qed.

Lemma mapping_line_errors h frame stripped raw_line e :
  mapping_line h frame stripped raw_line = Err e -> mapping_error e.
Proof. unfold mapping_line. intros H. split_err; exact I. Qed.

(** Where an error of one line comes from. *)
Lemma parse_line_errors st raw_line e :
  parse_line st raw_line = Err e ->
  is_blank raw_line = false
  /\ (e = InvalidIndentation raw_line
      \/ (e = InvalidIndentStructure
          /\ pop_frames (line_indent raw_line) (frames st) = [])
      \/ (exists frame below,
            pop_frames (line_indent raw_line) (frames st) = frame :: below
            /\ indent frame < line_indent raw_line
            /\ enter_block (heap st) frame (line_indent raw_line)
                 (stripped_of raw_line) raw_line = Err e)
      \/ item_error e \/ mapping_error e).
Proof.
  unfold parse_line. fold (stripped_of raw_line). fold (is_blank raw_line).
  fold (line_indent raw_line). intros H.
  destruct (is_blank raw_line); [discriminate|]. split; [reflexivity|].
  destruct (negb _); [injection H as <-; auto|].
  destruct (pop_frames _ (frames st)) as [|frame below] eqn:Hpop;
    [injection H as <-; auto|].
  right. right.
  apply bind_Err in H as [H | ([[h1 frame1] open] & Henter & H)].
  - left. exists frame, below. split; [reflexivity|].
    destruct (Nat.ltb_spec (indent frame) (line_indent raw_line));
      [|discriminate].
    split; [assumption|].
    apply bind_Err in H as [H | ([h1 pushed] & _ & H)];
      [assumption | discriminate].
  - right.
    apply bind_Err in H as [H | ([h2 frame2] & _ & H)]; [|discriminate].
    destruct (is_item _);
      [left; eapply item_line_errors | right; eapply mapping_line_errors];
      eassumption.
Qed.

(** ** A [- ] line always carries an item *)

Lemma rstrip_all_space_empty s :
  all_space (Str.rstrip s) = true -> Str.rstrip s = EmptyString.
Proof.
  induction s as [|c s IH]; simpl; [reflexivity|].
  destruct (Str.is_empty (Str.rstrip s) && Str.is_space c) eqn:E;
    [reflexivity|].
  simpl. intros H. apply andb_true_iff in H as [Hc Hs].
  rewrite (IH Hs), Hc in E. discriminate.
Qed.

Lemma lstrip_not_all_space s :
  all_space s = false -> all_space (Str.lstrip s) = false.
Proof.
  induction s as [|c s IH]; simpl; [discriminate|].
  destruct (Str.is_space c) eqn:E; simpl; [exact IH|].
  now rewrite E.
Qed.

Lemma rstrip_not_all_space s :
  all_space s = false -> all_space (Str.rstrip s) = false.
Proof.
  induction s as [|c s IH]; simpl; [discriminate|].
  destruct (Str.is_space c) eqn:E; simpl.
  - intros Hs. specialize (IH Hs).
    destruct (Str.rstrip s) as [|c' s'] eqn:Er; [discriminate|].
    simpl. rewrite E. exact IH.
  - intros _. rewrite andb_false_r. simpl. now rewrite E.
Qed.

Lemma strip_not_empty s :
  all_space s = false -> Str.is_empty (Str.strip s) = false.
Proof.
  intros H. apply lstrip_not_all_space, rstrip_not_all_space in H.
  unfold Str.strip. now destruct (Str.rstrip (Str.lstrip s)).
Qed.

Lemma rstrip_cons s c u :
  Str.rstrip s = String c u ->
  exists s', s = String c s' /\ u = Str.rstrip s'
             /\ (Str.is_empty u && Str.is_space c = false).
Proof.
  destruct s as [|c0 s0]; simpl; [discriminate|].
  destruct (Str.is_empty (Str.rstrip s0) && Str.is_space c0) eqn:E;
    [discriminate|].
  intros [= -> <-]. eauto.
Qed.

Lemma is_item_shape s :
  is_item s = true -> exists r, s = String "-" (String " " r).
Proof.
  unfold is_item, Str.startswith.
  destruct s as [|a [|b r]]; cbn [String.prefix]; try discriminate.
  - destruct (ascii_dec "-" a); discriminate.
  - destruct (ascii_dec "-" a) as [<-|]; [|discriminate].
    destruct (ascii_dec " " b) as [<-|]; [|discriminate]. eauto.
Qed.

Lemma item_after_rstrip u :
  is_item (Str.rstrip u) = true ->
  Str.is_empty (Str.strip (Str.drop 2 (Str.rstrip u))) = false.
Proof.
  intros H. destruct (is_item_shape _ H) as [r Hr]. rewrite Hr. simpl Str.drop.
  apply rstrip_cons in Hr as (s1 & _ & Hr & _).
  symmetry in Hr. apply rstrip_cons in Hr as (s2 & _ & -> & Hne).
  apply strip_not_empty.
  destruct (all_space (Str.rstrip s2)) eqn:E; [|reflexivity].
  rewrite (rstrip_all_space_empty _ E) in Hne. discriminate.
Qed.

(** What follows the marker of a [- ] line is never empty: the line was
    stripped, so it does not end with the blank of the marker. *)
Lemma item_text_not_empty raw_line :
  is_item (stripped_of raw_line) = true ->
  Str.is_empty (item_text_of (stripped_of raw_line)) = false.
Proof. unfold stripped_of, item_text_of. apply item_after_rstrip. Qed.

(** ** Sequences under construction *)

Lemma lists_insert_dict (h : store) fresh l d d' :
  lists_ok_except h fresh -> h !! l = Some (ODict d) ->
  lists_ok_except (<[l := ODict d']> h) fresh.
Proof.
  intros Hok Hl l' xs H'. apply Hok.
  destruct (decide (l = l')) as [<-|Hne].
  - rewrite (lookup_insert_same _ _ _ _ Hl) in H'. discriminate.
  - now rewrite list_lookup_insert_ne in H'.
Qed.

Lemma lists_alloc_dict (h : store) fresh d :
  lists_ok_except h fresh -> lists_ok_except (h ++ [ODict d]) fresh.
Proof.
  intros Hok l xs H. apply lookup_app_Some in H as [H | [_ H]].
  - now apply Hok.
  - destruct (l - length h) as [|n]; simpl in H; [discriminate|].
    destruct n; discriminate.
Qed.

Lemma lists_alloc_list (h : store) :
  lists_ok h -> lists_ok_except (h ++ [OList []]) (Some (length h)).
Proof.
  intros Hok l xs H. apply lookup_app_Some in H as [H | [Hle H]].
  - destruct (Hok _ _ H) as [Hp [Hne | Hf]]; [auto | discriminate].
  - destruct (l - length h) as [|n] eqn:E; simpl in H;
      [|destruct n; discriminate].
    injection H as <-. split; [intros []|]. right. f_equal. lia.
Qed.

Lemma lists_append (h : store) fresh l xs v :
  lists_ok_except h fresh -> h !! l = Some (OList xs) ->
  v <> PENDING -> (forall l', fresh = Some l' -> l' = l) ->
  lists_ok (<[l := OList (xs ++ [v])]> h).
Proof.
  intros Hok Hl Hv Hf l' ys H'.
  destruct (decide (l = l')) as [<-|Hne].
  - rewrite (lookup_insert_same _ _ _ _ Hl) in H'. injection H' as <-.
    destruct (Hok _ _ Hl) as [Hp _]. split.
    + rewrite in_app_iff. simpl. intros [H | [H | []]]; [auto | congruence].
    + left. now destruct xs.
  - rewrite list_lookup_insert_ne in H' by assumption.
    destruct (Hok _ _ H') as [Hp [Hne' | Hfr]]; [auto|].
    apply Hf in Hfr. congruence.
Qed.

(** A pending slot that is resolved and read back. *)
Lemma resolve_read_back (h : store) c k o d fresh h1 v :
  dict_at h c = Some d ->
  setitem (h ++ [o]) c k fresh = OK h1 ->
  getitem h1 c k = OK v ->
  v = fresh
  /\ exists l, c = VRef l /\ h !! l = Some (ODict d)
               /\ h1 = <[l := ODict (dict_set k fresh d)]> (h ++ [o]).
Proof.
  intros Hd Hset Hget. apply dict_at_Some in Hd as (l & -> & Hl).
  pose proof (lookup_alloc_old _ _ _ o Hl) as Hl'.
  rewrite (setitem_lookup _ _ _ _ _ Hl') in Hset. injection Hset as <-.
  rewrite (getitem_lookup _ _ (dict_set k fresh d) _ fresh) in Hget.
  - injection Hget as <-. eauto.
  - eapply lookup_insert_same, Hl'.
  - apply dict_get_set_eq.
Qed.

Lemma lists_ok_dict_frame (h : store) fresh c d :
  lists_ok_except h fresh -> dict_at h c = Some d ->
  (forall l, fresh = Some l -> c = VRef l) -> lists_ok h.
Proof.
  intros Hok Hd Hf l xs H. destruct (Hok _ _ H) as [Hp [Hne | Hfr]]; [auto..|].
  exfalso. apply Hf in Hfr. subst c.
  apply dict_at_Some in Hd as (l' & [= <-] & Hl). congruence.
Qed.

Lemma enter_block_lists h frame ind stripped raw_line h' pushed :
  lists_ok h ->
  enter_block h frame ind stripped raw_line = OK (h', pushed) ->
  exists fresh,
    lists_ok_except h' fresh
    /\ forall l, fresh = Some l ->
                 container pushed = VRef l /\ is_item stripped = true.
Proof.
  unfold enter_block, alloc. intros Hok H.
  destruct (negb _); [discriminate|].
  apply bind_OK in H as ([h1 c] & H & Hp). injection Hp as <- <-.
  destruct (dict_at h (container frame)) as [d|] eqn:Hd.
  - destruct (last_key frame) as [k|]; [|discriminate].
    apply bind_OK in H as (h2 & Hres & H).
    apply bind_OK in H as (v & Hget & H). injection H as <- <-.
    destruct (get_is_PENDING d k).
    + destruct (resolve_read_back _ _ _ _ _ _ _ _ Hd Hres Hget)
        as (-> & l & Hc & Hl & ->).
      destruct (is_item stripped).
      * exists (Some (length h)). split; [|intros l' [= <-]; auto].
        eapply lists_insert_dict; [now apply lists_alloc_list|].
        eapply lookup_alloc_old, Hl.
      * exists None. split; [|discriminate].
        eapply lists_insert_dict; [now apply lists_alloc_dict|].
        eapply lookup_alloc_old, Hl.
    + injection Hres as <-. exists None. split; [assumption | discriminate].
  - destruct (list_at h (container frame)) as [xs|] eqn:Hxs; [|discriminate].
    destruct (last xs) as [lastv|] eqn:Hlast; [|discriminate].
    destruct (is_PENDING lastv) eqn:Hpend.
    + exfalso. destruct lastv; try discriminate.
      apply list_at_Some in Hxs as (l & _ & Hl).
      destruct (Hok _ _ Hl) as [Hp _]. apply Hp.
      apply last_Some in Hlast as [xs' ->]. apply in_app_iff. simpl. auto.
    + injection H as <- <-. exists None. split; [assumption | discriminate].
Qed.

Lemma item_target_lists h frame raw_line h1 cont fresh :
  lists_ok_except h fresh ->
  (forall l, fresh = Some l -> container frame = VRef l) ->
  item_target h frame raw_line = OK (h1, cont) ->
  exists fresh',
    lists_ok_except h1 fresh'
    /\ forall l, fresh' = Some l -> cont = VRef l.
Proof.
  unfold item_target, alloc. intros Hok Hf H.
  destruct (dict_at h (container frame)) as [d|] eqn:Hd.
  - pose proof (lists_ok_dict_frame _ _ _ _ Hok Hd Hf) as Hok'.
    destruct (last_key frame) as [k|]; [|discriminate].
    apply bind_OK in H as (h2 & Hres & H).
    apply bind_OK in H as (v & Hget & H). injection H as <- <-.
    destruct (get_is_PENDING d k).
    + destruct (resolve_read_back _ _ _ _ _ _ _ _ Hd Hres Hget)
        as (-> & l & Hc & Hl & ->).
      exists (Some (length h)). split; [|intros l' [= <-]; auto].
      eapply lists_insert_dict; [now apply lists_alloc_list|].
      eapply lookup_alloc_old, Hl.
    + injection Hres as <-. exists None. split; [assumption | discriminate].
  - injection H as <- <-. eauto.
Qed.

Lemma parse_value_not_PENDING raw v : parse_value raw = OK v -> v <> PENDING.
Proof.
  destruct (parse_value_scalar raw) as (v' & -> & Hs).
  intros [= <-] ->. discriminate.
Qed.

Lemma item_line_lists h frame stripped raw_line h' frame' fresh :
  lists_ok_except h fresh ->
  (forall l, fresh = Some l -> container frame = VRef l) ->
  Str.is_empty (item_text_of stripped) = false ->
  item_line h frame stripped raw_line = OK (h', frame') ->
  lists_ok h'.
Proof.
  unfold item_line, alloc. fold (item_text_of stripped).
  intros Hok Hf Hne H. rewrite Hne in H.
  apply bind_OK in H as ([h1 cont] & Htgt & H).
  destruct (item_target_lists _ _ _ _ _ _ Hok Hf Htgt) as (fresh' & Hok1 & Hf1).
  destruct (list_at h1 cont) as [xs|] eqn:Hxs; [|discriminate].
  apply list_at_Some in Hxs as (lc & -> & Hl).
  assert (Hfresh : forall l', fresh' = Some l' -> l' = lc).
  { intros l' Hl'. apply Hf1 in Hl'. congruence. }
  destruct (Str.contains ":" (item_text_of stripped)).
  - destruct (Str.split1 ":" (item_text_of stripped)) as [key0 rest].
    apply bind_OK in H as (v & _ & H).
    rewrite (append_lookup _ _ xs) in H by (eapply lookup_alloc_old, Hl).
    injection H as <- _.
    eapply lists_append;
      [apply lists_alloc_dict; exact Hok1 | | discriminate | exact Hfresh].
    eapply lookup_alloc_old, Hl.
  - apply bind_OK in H as (v & Hv & H). apply parse_value_not_PENDING in Hv.
    rewrite (append_lookup _ _ _ _ Hl) in H. injection H as <- _.
    eapply lists_append; eassumption.
Qed.

Lemma mapping_line_lists h frame stripped raw_line h' frame' fresh :
  lists_ok_except h fresh ->
  mapping_line h frame stripped raw_line = OK (h', frame') ->
  lists_ok_except h' fresh.
Proof.
  intros Hok H.
  apply mapping_line_OK in H as (l & d & v & _ & _ & _ & Hl & -> & _).
  eapply lists_insert_dict; eassumption.
Qed.

Lemma lists_ok_none (h : store) fresh :
  lists_ok_except h fresh -> fresh = None -> lists_ok h.
Proof. now intros H ->. Qed.

(** Between two lines every sequence of the store has an item, and none
    holds the pending marker. *)
Lemma parse_line_lists st raw_line st' :
  lists_ok (heap st) -> parse_line st raw_line = OK st' ->
  lists_ok (heap st').
Proof.
  intros Hok H. destruct (is_blank raw_line) eqn:Hb.
  { rewrite blank_line_skipped in H by assumption. now injection H as <-. }
  revert H. unfold parse_line. fold (stripped_of raw_line).
  fold (is_blank raw_line). fold (line_indent raw_line). rewrite Hb.
  destruct (negb _); [discriminate|].
  destruct (pop_frames _ (frames st)) as [|frame below]; [discriminate|].
  intros H.
  apply bind_OK in H as ([[h1 frame1] open] & Henter & H).
  apply bind_OK in H as ([h2 frame2] & Hline & H).
  injection H as <-. cbn [heap].
  assert (Hmid : exists fresh,
             lists_ok_except h1 fresh
             /\ forall l, fresh = Some l ->
                  container frame1 = VRef l
                  /\ is_item (stripped_of raw_line) = true).
  { destruct (indent frame <? line_indent raw_line).
    - apply bind_OK in Henter as ([h1' pushed] & He & Henter).
      injection Henter as <- <- <-. eapply enter_block_lists; eassumption.
    - injection Henter as <- <- <-. exists None.
      split; [assumption | discriminate]. }
  destruct Hmid as (fresh & Hok1 & Hfresh).
  destruct (is_item (stripped_of raw_line)) eqn:Hi.
  - eapply item_line_lists; [exact Hok1 | | | exact Hline].
    + intros l Hl. now apply Hfresh.
    + now apply item_text_not_empty.
  - eapply lists_ok_none; [eapply mapping_line_lists; eassumption|].
    destruct fresh as [l|]; [|reflexivity].
    destruct (Hfresh l eq_refl) as [_ Hx]. discriminate.
Qed.

Lemma initial_lists_ok : lists_ok (heap initial).
Proof. intros [|l] xs; simpl; discriminate. Qed.

Lemma parse_lines_lists lines : forall st st',
  lists_ok (heap st) -> parse_lines st lines = OK st' -> lists_ok (heap st').
Proof.
  induction lines as [|raw_line lines IH]; simpl; intros st st' Hok H.
  - now injection H as <-.
  - apply bind_OK in H as (st1 & H1 & H).
    eapply IH; [|eassumption]. eapply parse_line_lists; eassumption.
Qed.

(** ** What holds of every state the loop reaches *)

Lemma all_lines_within (lines : list string) :
  Forall (fun m => is_blank m = true \/ 0 <= line_indent m) lines.
Proof. apply Forall_forall. intros m _. right. lia. Qed.

Lemma parse_lines_reached lines st :
  parse_lines initial lines = OK st -> reached st.
Proof.
  intros H. split; [|split; [|split]].
  - eapply parse_lines_invariant; [exact H | apply initial_invariant].
  - eapply parse_lines_lists; [apply initial_lists_ok | exact H].
  - eapply (parse_lines_within 0 root); [|apply all_lines_within | exact H].
    exists [], (mkFrame 0 root None), []. simpl. auto.
  - destruct (parse_lines_within 0 root lines initial st) as [_ Hk];
      [|apply all_lines_within | exact H|].
    + exists [], (mkFrame 0 root None), []. simpl. auto.
    + destruct (Hk 0 []) as (d & Hd & _); [reflexivity | eauto].
Qed.

Lemma pop_frames_suffix ind fs f below :
  pop_frames ind fs = f :: below -> In f fs.
Proof.
  induction fs as [|g fs IH]; simpl; [discriminate|].
  destruct (ind <? indent g); [auto|]. intros [= -> _]. auto.
Qed.

Lemma enter_block_no_item h frame ind stripped raw_line r :
  enter_block h frame ind stripped raw_line = Err (ListHasNoItem r) ->
  list_at h (container frame) = Some [].
Proof.
  unfold enter_block, alloc. intros H.
  destruct (negb _); [discriminate|].
  apply bind_Err in H as [H | ([h1 c] & _ & H)]; [|discriminate].
  destruct (dict_at h (container frame)) as [d|].
  - split_err; discriminate.
  - destruct (list_at h (container frame)) as [xs|]; [|discriminate].
    destruct (last xs) as [lastv|] eqn:Hlast.
    + split_err; discriminate.
    + apply last_None in Hlast. now subst xs.
Qed.

(** A line read in a reached state raises one of eight errors. *)
Lemma parse_line_raised st raw_line e :
  reached st -> parse_line st raw_line = Err e -> raised_error e.
Proof.
  intros (Hinv & Hlists & Hopen & _) H.
  pose proof (parse_line_Err _ _ _ H Hinv) as Hline.
  apply parse_line_errors in H as (_ & [-> | [[-> Hpop] | [Hblock | Herr]]]).
  - exact I.
  - exfalso.
    destruct (pop_frames_open_at 0 root (line_indent raw_line) _ Hopen)
      as (above & f & below & Hfs & _); [lia|].
    rewrite Hpop in Hfs. now destruct above.
  - destruct Hblock as (frame & below & Hpop & _ & He).
    pose proof (enter_block_errors _ _ _ _ _ _ He) as Hb.
    destruct e; try contradiction; try exact I.
    exfalso. apply enter_block_no_item, list_at_Some in He as (l & _ & Hl).
    destruct (Hlists _ _ Hl) as [_ [Hne | Hf]]; [now apply Hne | discriminate].
  - destruct Herr as [Herr | Herr]; destruct e; try contradiction; exact I.
Qed.

(** A failed run stops at the first line that raises. *)
Lemma parse_lines_failing_line lines : forall st e,
  parse_lines st lines = Err e ->
  exists before raw_line after st',
    lines = before ++ raw_line :: after
    /\ parse_lines st before = OK st'
    /\ parse_line st' raw_line = Err e.
Proof.
  induction lines as [|raw_line lines IH]; simpl; intros st e H.
  - discriminate.
  - apply bind_Err in H as [H | (st1 & H1 & H)].
    + exists [], raw_line, lines, st. auto.
    + destruct (IH _ _ H) as (before & r & after & st' & -> & Hb & He).
      exists (raw_line :: before), r, after, st'. simpl. rewrite H1. auto.
Qed.

(** ** The errors [parse_yaml] raises *)

(** [parse_yaml] raises eight kinds of error and no other: its statements
    that raise "Invalid indentation structure", "List has no item to
    extend" and "Unsupported container at indent" are never reached.  Two
    of the eight are not [ValueError]: the [KeyError] and the [TypeError]
    of a dict access.  Each of the eight is raised by some text. *)
Theorem parse_yaml_errors :
  (forall text e, parse_yaml text = Err e -> raised_error e)
  /\ parse_yaml odd_indent_text = Err (InvalidIndentation " b: 1")
  /\ parse_yaml indent_jump_text = Err (InvalidIndentLevel "    b: 1")
  /\ parse_yaml indented_first_text = Err (MissingKeyForNested "  a: 1")
  /\ parse_yaml item_first_text = Err (ListItemWithoutKey "- a")
  /\ parse_yaml item_under_scalar_text = Err (ExpectedList "- b")
  /\ parse_yaml no_colon_text = Err (MissingColon "abc")
  /\ parse_yaml block_after_item_text = Err (KeyError "k")
  /\ parse_yaml block_under_scalar_text = Err TypeError.
Proof.
  split; [|repeat split; vm_compute; reflexivity].
  intros text e. unfold parse_yaml. intros H.
  apply bind_Err in H as [H | (st & Hst & H)].
  - apply parse_lines_failing_line in H as (before & r & after & st & _ & Hb & He).
    eapply parse_line_raised; [|exact He].
    eapply parse_lines_reached, Hb.
  - exfalso. apply parse_lines_invariant in Hst; [|apply initial_invariant].
    destruct (finalize_root st Hst) as [t Ht]. rewrite Ht in H. discriminate.
Qed.

Lemma parse_yaml_errors_witness :
  raised_error (MissingColon "abc").
Proof.
  apply (proj1 parse_yaml_errors no_colon_text). vm_compute. reflexivity.
Defined.

(** ** Sequences of the result *)

Lemma finalize_no_empty_Sequence (h : store) :
  lists_ok h ->
  forall depth v t, finalize h depth v = Some t -> no_empty_Sequence t = true.
Proof.
  intros Hok. induction depth as [|depth IH]; simpl; intros v t H;
    [discriminate|].
  destruct v; try (injection H as <-; reflexivity).
  destruct (h !! l) as [[d|xs]|] eqn:Hl; [| |discriminate].
  - destruct (all_some _) as [ys|] eqn:E; [|discriminate].
    injection H as <-. simpl. apply all_some_Forall2 in E. clear Hl.
    induction E as [|kv y d' ys Hy _ IHE]; simpl; [reflexivity|].
    rewrite IHE, andb_true_r.
    destruct (finalize h depth (snd kv)) as [t|] eqn:Ht; [|discriminate].
    injection Hy as <-. simpl. eapply IH; eassumption.
  - destruct (all_some _) as [ys|] eqn:E; [|discriminate].
    injection H as <-. apply all_some_Forall2 in E.
    destruct (Hok _ _ Hl) as [_ [Hne | Hf]]; [|discriminate].
    assert (Hall : forallb no_empty_Sequence ys = true).
    { clear Hne Hl. induction E as [|x y xs' ys Hy _ IHE]; simpl;
        [reflexivity|].
      rewrite IHE, andb_true_r. eapply IH; eassumption. }
    destruct E; [contradiction|]. exact Hall.
Qed.

(** A [- ] line always has an item after its marker, so the branch that
    appends the pending marker to a sequence is never taken: in every
    state the loop reaches each sequence has an item and holds no pending
    marker, and no sequence of the tree [parse_yaml] returns is empty. *)
Theorem sequences_have_items :
  (forall raw_line,
      is_item (stripped_of raw_line) = true ->
      Str.is_empty (item_text_of (stripped_of raw_line)) = false)
  /\ (forall lines st l xs,
        parse_lines initial lines = OK st ->
        heap st !! l = Some (OList xs) ->
        xs <> [] /\ ~ In PENDING xs)
  /\ (forall text t, parse_yaml text = OK t -> no_empty_Sequence t = true).
Proof.
  split; [exact item_text_not_empty | split].
  - intros lines st l xs H Hl.
    apply parse_lines_reached in H as (_ & Hok & _).
    destruct (Hok _ _ Hl) as [Hp [Hne | Hf]]; [auto | discriminate].
  - intros text t. unfold parse_yaml. intros H.
    apply bind_OK in H as (st & Hst & H).
    apply parse_lines_reached in Hst as (_ & Hok & _).
    destruct (finalize _ _ root) as [t'|] eqn:E; [|discriminate].
    injection H as <-. eapply finalize_no_empty_Sequence; eassumption.
Qed.

Lemma sequences_have_items_witness :
  no_empty_Sequence (Mapping [("a", Sequence [Integer 1])]) = true.
Proof.
  apply (proj2 (proj2 sequences_have_items) child_item_text).
  vm_compute. reflexivity.
Defined.

(** ** The root of the result *)

(** [parse_yaml] returns a mapping, whatever the text: the root is a dict
    from the first line to the last.  A text in which every line is
    skipped (no line at all, blank lines, comments) gives the empty
    mapping. *)
Theorem parse_yaml_returns_mapping :
  (forall text t, parse_yaml text = OK t -> exists entries, t = Mapping entries)
  /\ (forall text,
        Forall (fun l => is_blank l = true) (Str.splitlines text) ->
        parse_yaml text = OK (Mapping [])).
Proof.
  split.
  - intros text t. unfold parse_yaml. intros H.
    apply bind_OK in H as (st & Hst & H).
    apply parse_lines_reached in Hst as (_ & _ & _ & d & Hd).
    cbn [finalize] in H. unfold root in H. rewrite Hd in H.
    destruct (all_some _) as [ys|]; [|discriminate].
    injection H as <-. eauto.
  - intros text H. unfold parse_yaml.
    rewrite (parse_lines_skipped _ _ H). reflexivity.
Qed.

Lemma parse_yaml_returns_mapping_witness :
  parse_yaml ("# devices" ++ nl ++ "   " ++ nl) = OK (Mapping []).
Proof.
  apply (proj2 parse_yaml_returns_mapping ("# devices" ++ nl ++ "   " ++ nl)%string).
  vm_compute. repeat constructor.
Defined.

(** ** Odd indentation *)

(** A line with an odd number of leading spaces stops the parse with
    "Invalid indentation", wherever it stands and whatever the lines
    before it built, as soon as those were read without error. *)
Theorem odd_indentation_rejected :
  forall st before raw_line after st',
    parse_lines st before = OK st' ->
    is_blank raw_line = false ->
    line_indent raw_line mod 2 = 1 ->
    parse_lines st (before ++ raw_line :: after)
    = Err (InvalidIndentation raw_line).
Proof.
  intros st before raw_line after st' Hb Hblank Hodd.
  rewrite parse_lines_app, Hb. cbn [bind parse_lines].
  unfold parse_line. fold (stripped_of raw_line). fold (is_blank raw_line).
  fold (line_indent raw_line). rewrite Hblank, Hodd. reflexivity.
Qed.

Lemma odd_indentation_rejected_witness :
  parse_lines initial (["a:"] ++ " b: 1" :: ["c: 2"])
  = Err (InvalidIndentation " b: 1").
Proof.
  apply (odd_indentation_rejected initial ["a:"] " b: 1" ["c: 2"] after_bare_key);
    reflexivity.
Defined.

(** ** An indented block under a scalar *)

Lemma scalar_is_no_container (h : store) v :
  is_scalar v = true -> dict_at h v = None /\ list_at h v = None.
Proof. destruct v; simpl; auto; discriminate. Qed.

Lemma setitem_scalar (h : store) v k x :
  is_scalar v = true -> setitem h v k x = Err TypeError.
Proof. destruct v; simpl; auto; discriminate. Qed.

Lemma get_is_PENDING_scalar k v d :
  is_scalar v = true -> get_is_PENDING (dict_set k v d) k = false.
Proof.
  intros H. unfold get_is_PENDING. rewrite dict_get_set_eq. now destruct v.
Qed.

(** A [key: value] line, then a line two columns deeper: the block is
    entered on the scalar the key holds, and the line fails.  A [- ] line
    fails with "Expected list for item", a line without colon with
    "Invalid line", and a [k: v] line with the [TypeError] of an item
    assignment on a scalar, which is no [ValueError]. *)
Theorem block_under_scalar_fails :
  forall st l1 mid l2 st1,
    is_blank l1 = false -> is_item (stripped_of l1) = false ->
    Str.is_empty (value_of (stripped_of l1)) = false ->
    parse_line st l1 = OK st1 ->
    Forall (fun m => is_blank m = true) mid ->
    is_blank l2 = false -> line_indent l2 = line_indent l1 + 2 ->
    parse_lines st1 (mid ++ [l2])
    = Err (if is_item (stripped_of l2) then ExpectedList l2
           else if Str.contains ":" (stripped_of l2) then TypeError
                else MissingColon l2).
Proof.
  intros st l1 mid l2 st1 Hb1 Hi1 Hv1 H1 Hmid Hb2 Hind.
  rewrite parse_lines_app, (parse_lines_skipped _ _ Hmid).
  cbn [bind parse_lines].
  apply parse_line_OK in H1 as (h1 & f1 & open & h2 & f2 & Hf1 & Hev & Hl1 & ->);
    [|assumption].
  rewrite Hi1 in Hl1.
  apply mapping_line_OK in Hl1 as (l & d & v & _ & Hv & Hc & Hl & -> & ->).
  rewrite Hv1 in Hv.
  destruct (parse_value_scalar (value_of (stripped_of l1))) as (v' & Hv' & Hs).
  rewrite Hv' in Hv. injection Hv as <-.
  set (key := key_of (stripped_of l1)) in *.
  pose proof (lookup_insert_same _ _ _ (ODict (dict_set key v' d)) Hl) as Hl'.
  unfold parse_line at 1. fold (stripped_of l2). fold (is_blank l2).
  fold (line_indent l2). rewrite Hb2.
  replace (line_indent l2 mod 2 =? 0) with true
    by (symmetry; apply Nat.eqb_eq; rewrite Hind; now apply even_indent_step).
  cbn [negb frames heap].
  rewrite pop_frames_keep by (simpl; lia).
  replace (indent (set_last_key f1 key) <? line_indent l2) with true
    by (symmetry; apply Nat.ltb_lt; simpl; lia).
  unfold enter_block.
  replace (line_indent l2 =? indent (set_last_key f1 key) + 2) with true
    by (symmetry; apply Nat.eqb_eq; simpl; lia).
  cbn [negb container set_last_key last_key]. rewrite Hc.
  rewrite (dict_at_lookup _ _ _ Hl'), (get_is_PENDING_scalar _ _ _ Hs).
  cbn [bind]. rewrite (getitem_lookup _ _ _ _ _ Hl' (dict_get_set_eq _ _ _)).
  cbn [bind].
  destruct (scalar_is_no_container
              (<[l:=ODict (dict_set key v' d)]> h1) v' Hs) as [Hnd Hnl].
  destruct (is_item (stripped_of l2)).
  - unfold item_line, item_target. cbn [container]. rewrite Hnd.
    cbn [bind]. rewrite Hnl. reflexivity.
  - destruct (Str.contains ":" (stripped_of l2)) eqn:Hcol.
    + rewrite mapping_line_eq by assumption. cbn [container].
      destruct (Str.is_empty (value_of (stripped_of l2))).
      * cbn [bind]. now rewrite setitem_scalar.
      * destruct (parse_value_scalar (value_of (stripped_of l2)))
          as (v2 & -> & _).
        cbn [bind]. now rewrite setitem_scalar.
    + unfold mapping_line. rewrite Hcol. reflexivity.
Qed.

Lemma block_under_scalar_fails_witness :
  parse_lines after_a1 ([EmptyString] ++ ["  b: 2"]) = Err TypeError.
Proof.
  apply (block_under_scalar_fails initial "a: 1" [EmptyString] "  b: 2"
           after_a1); try reflexivity.
  repeat constructor.
Defined.

(** ** A block after a [- ] line read in a mapping *)

(** A [- key: ...] line read in the frame of a mapping (the sequence is
    the value of the mapping's last key) sets [last_key] of that frame to
    the key of the item.  When the mapping has no such key, the next line
    read, two columns deeper, looks the key up in the mapping and stops
    the parse with a [KeyError], which is no [ValueError]. *)
Theorem block_after_item_in_mapping_fails :
  forall st l1 mid l2 st1 top below d,
    is_blank l1 = false -> is_item (stripped_of l1) = true ->
    Str.contains ":" (item_text_of (stripped_of l1)) = true ->
    parse_line st l1 = OK st1 ->
    frames st1 = top :: below ->
    dict_at (heap st1) (container top) = Some d ->
    dict_get (item_key (stripped_of l1)) d = None ->
    Forall (fun m => is_blank m = true) mid ->
    is_blank l2 = false -> line_indent l2 = line_indent l1 + 2 ->
    last_key top = Some (item_key (stripped_of l1))
    /\ parse_lines st1 (mid ++ [l2])
       = Err (KeyError (item_key (stripped_of l1))).
Proof.
  intros st l1 mid l2 st1 top below d Hb1 Hi1 Hc1 H1 Hfs Hd Hget Hmid Hb2 Hind.
  rewrite parse_lines_app, (parse_lines_skipped _ _ Hmid).
  cbn [bind parse_lines].
  apply parse_line_OK in H1 as (h0 & f1 & open & h2 & f2 & Hf1 & Hev & Hl1 & ->);
    [|assumption].
  rewrite Hi1 in Hl1. cbn [frames heap] in *. injection Hfs as -> ->.
  apply item_line_key_OK in Hl1
    as (h1 & lseq & xs & v & _ & _ & _ & -> & ->); [|assumption].
  set (key := item_key (stripped_of l1)) in *.
  split; [reflexivity|].
  unfold parse_line at 1. fold (stripped_of l2). fold (is_blank l2).
  fold (line_indent l2). rewrite Hb2.
  replace (line_indent l2 mod 2 =? 0) with true
    by (symmetry; apply Nat.eqb_eq; rewrite Hind; now apply even_indent_step).
  cbn [negb frames heap].
  rewrite pop_frames_keep by (simpl; lia).
  replace (indent (set_last_key f1 key) <? line_indent l2) with true
    by (symmetry; apply Nat.ltb_lt; simpl; lia).
  unfold enter_block.
  replace (line_indent l2 =? indent (set_last_key f1 key) + 2) with true
    by (symmetry; apply Nat.eqb_eq; simpl; lia).
  cbn [negb last_key set_last_key]. rewrite Hd.
  unfold get_is_PENDING, getitem. rewrite Hget. cbn [bind].
  rewrite Hd, Hget. reflexivity.
Qed.

Lemma block_after_item_in_mapping_fails_witness :
  last_key (mkFrame 0 root (Some "k")) = Some (item_key (stripped_of "- k: 1"))
  /\ parse_lines after_item_in_mapping ([] ++ ["  b: 2"])
     = Err (KeyError (item_key (stripped_of "- k: 1"))).
Proof.
  apply (block_after_item_in_mapping_fails after_bare_key "- k: 1" []
           "  b: 2" after_item_in_mapping (mkFrame 0 root (Some "k")) []
           [("a", VRef 1)]); try reflexivity.
  constructor.
Defined.

(** ** "Missing key for nested mapping" *)

Lemma keeps_lists_refl h : keeps_lists h h.
Proof. intros l xs H. eauto. Qed.

Lemma keeps_lists_trans h1 h2 h3 :
  keeps_lists h1 h2 -> keeps_lists h2 h3 -> keeps_lists h1 h3.
Proof.
  intros H12 H23 l xs H. destruct (H12 _ _ H) as (xs2 & H2). eauto.
Qed.

Lemma keeps_lists_alloc (h : store) o : keeps_lists h (h ++ [o]).
Proof. intros l xs H. exists xs. eapply lookup_alloc_old, H. Qed.

Lemma keeps_lists_insert (h : store) l o o' :
  h !! l = Some o -> (forall xs, o = OList xs -> exists xs', o' = OList xs') ->
  keeps_lists h (<[l := o']> h).
Proof.
  intros Hl Ho l' xs H'. destruct (decide (l = l')) as [<-|Hne].
  - rewrite Hl in H'. injection H' as ->. destruct (Ho _ eq_refl) as [xs' ->].
    exists xs'. eapply lookup_insert_same, Hl.
  - exists xs. now rewrite list_lookup_insert_ne.
Qed.

Lemma keeps_lists_setitem (h : store) c k v h' :
  setitem h c k v = OK h' -> keeps_lists h h'.
Proof.
  intros H. apply setitem_OK in H as (l & d & -> & Hl & ->).
  eapply keeps_lists_insert; [exact Hl | discriminate].
Qed.

Lemma keeps_lists_append (h : store) c v h' :
  append h c v = OK h' -> keeps_lists h h'.
Proof.
  intros H. apply append_OK in H as (l & xs & -> & Hl & ->).
  eapply keeps_lists_insert; [exact Hl | eauto].
Qed.

Lemma keeps_lists_set_last (h : store) c v h' :
  set_last h c v = OK h' -> keeps_lists h h'.
Proof.
  intros H. apply set_last_OK in H as (l & xs & -> & Hl & ->).
  eapply keeps_lists_insert; [exact Hl | eauto].
Qed.

Ltac keeps_lists_steps :=
  repeat match goal with
  | H : setitem _ _ _ _ = OK _ |- _ => apply keeps_lists_setitem in H
  | H : append _ _ _ = OK _ |- _ => apply keeps_lists_append in H
  | H : set_last _ _ _ = OK _ |- _ => apply keeps_lists_set_last in H
  end;
  eauto 6 using keeps_lists_refl, keeps_lists_trans, keeps_lists_alloc.

Lemma enter_block_keeps_lists h frame ind stripped raw_line h' pushed :
  enter_block h frame ind stripped raw_line = OK (h', pushed) ->
  keeps_lists h h'.
Proof. unfold enter_block, alloc. intros H. split_ok; keeps_lists_steps. Qed.

Lemma mapping_line_keeps_lists h frame stripped raw_line h' frame' :
  mapping_line h frame stripped raw_line = OK (h', frame') ->
  keeps_lists h h' /\ last_key frame' <> None.
Proof.
  unfold mapping_line. intros H.
  split_ok; (split; [keeps_lists_steps | discriminate]).
Qed.

Lemma keyed_keeps h h' f : keeps_lists h h' -> keyed h f -> keyed h' f.
Proof.
  intros Hk [H | H]; [now left | right].
  destruct (list_at h (container f)) as [xs|] eqn:E; [|contradiction].
  apply list_at_Some in E as (l & Hc & Hl). destruct (Hk _ _ Hl) as [xs' Hl'].
  rewrite Hc, (list_at_lookup _ _ _ Hl'). discriminate.
Qed.

Lemma item_line_keyed h frame stripped raw_line h' frame' :
  item_line h frame stripped raw_line = OK (h', frame') ->
  keeps_lists h h' /\ keyed h' frame'.
Proof.
  unfold item_line, alloc. intros H.
  apply bind_OK in H as ([h1 cont] & Htgt & H).
  assert (Ht : keeps_lists h h1
               /\ (last_key frame <> None \/ cont = container frame)).
  { revert Htgt. unfold item_target, alloc. intros Htgt.
    split_ok; (split; [keeps_lists_steps | first [left; congruence | now right]]). }
  destruct Ht as [Hk1 Hfr].
  destruct (list_at h1 cont) as [xs|] eqn:Hxs; [|discriminate].
  assert (Hend : keeps_lists h1 h'
                 /\ (frame' = frame \/ exists k, frame' = set_last_key frame k)).
  { split_ok; (split; [keeps_lists_steps | eauto]). }
  destruct Hend as [Hk2 Hf'].
  split; [eapply keeps_lists_trans; eassumption|].
  assert (Hcont : container frame' = container frame)
    by (destruct Hf' as [-> | [k ->]]; reflexivity).
  destruct Hf' as [-> | [k ->]]; [|left; discriminate].
  destruct Hfr as [Hkey | ->]; [now left | right].
  apply list_at_Some in Hxs as (l & Hc & Hl). destruct (Hk2 _ _ Hl) as [xs' Hl'].
  rewrite Hc, (list_at_lookup _ _ _ Hl'). discriminate.
Qed.

Lemma enter_block_missing_key h frame ind stripped raw_line r :
  enter_block h frame ind stripped raw_line = Err (MissingKeyForNested r) ->
  dict_at h (container frame) <> None /\ last_key frame = None.
Proof.
  unfold enter_block, alloc. intros H.
  destruct (negb _); [discriminate|].
  apply bind_Err in H as [H | ([h1 c] & _ & H)]; [|discriminate].
  destruct (dict_at h (container frame)) as [d|].
  - destruct (last_key frame); [split_err; discriminate|].
    split; [discriminate | reflexivity].
  - split_err; discriminate.
Qed.

Lemma keyed_not_missing h frame :
  keyed h frame -> dict_at h (container frame) <> None ->
  last_key frame = None -> False.
Proof.
  intros [H | H] Hd Hk; [contradiction|].
  destruct (container frame) as [| | | | | |l]; simpl in *; try contradiction.
  destruct (h !! l) as [[d|xs]|]; contradiction.
Qed.

(** After a line that was read, every open frame has a [last_key] or
    holds a list. *)
Lemma parse_line_keyed st raw_line st' :
  Forall (keyed (heap st)) (frames st) \/ st = initial ->
  parse_line st raw_line = OK st' -> is_blank raw_line = false ->
  Forall (keyed (heap st')) (frames st').
Proof.
  intros Hst H Hb. revert H. unfold parse_line. fold (stripped_of raw_line).
  fold (is_blank raw_line). fold (line_indent raw_line). rewrite Hb.
  destruct (negb _); [discriminate|].
  destruct (pop_frames _ (frames st)) as [|frame below] eqn:Hpop;
    [discriminate|].
  intros H.
  apply bind_OK in H as ([[h1 frame1] open] & Henter & H).
  apply bind_OK in H as ([h2 frame2] & Hline & H).
  injection H as <-. cbn [frames heap].
  assert (Hmid : keeps_lists (heap st) h1 /\ Forall (keyed h1) open).
  { destruct (indent frame <? line_indent raw_line) eqn:Hlt.
    - apply bind_OK in Henter as ([h1' pushed] & He & Henter).
      injection Henter as <- <- <-.
      pose proof (enter_block_keeps_lists _ _ _ _ _ _ _ He) as Hk.
      split; [assumption|].
      destruct Hst as [Hst | ->].
      + eapply Forall_impl; [|intros f; apply (keyed_keeps _ _ f Hk)].
        rewrite <- Hpop. now apply pop_frames_Forall.
      + (* the first line read cannot enter a block *)
        exfalso. simpl in Hpop. injection Hpop as <- <-.
        revert He. unfold enter_block. simpl.
        destruct (negb _); discriminate.
    - injection Henter as <- <- <-. split; [apply keeps_lists_refl|].
      destruct Hst as [Hst | ->].
      + apply (pop_frames_Forall _ (line_indent raw_line)) in Hst.
        rewrite Hpop in Hst. now inversion Hst.
      + simpl in Hpop. injection Hpop as <- <-. constructor. }
  destruct Hmid as [Hk1 Hopen].
  destruct (is_item (stripped_of raw_line)).
  - apply item_line_keyed in Hline as [Hk2 Hf2].
    constructor; [assumption|].
    eapply Forall_impl; [exact Hopen | intros f; apply (keyed_keeps _ _ f Hk2)].
  - apply mapping_line_keeps_lists in Hline as [Hk2 Hf2].
    constructor; [now left|].
    eapply Forall_impl; [exact Hopen | intros f; apply (keyed_keeps _ _ f Hk2)].
Qed.

Lemma initial_not_keyed : ~ Forall (keyed (heap initial)) (frames initial).
Proof.
  intros H. inversion H as [|? ? [Hk | Hl] _]; subst; simpl in *; contradiction.
Qed.

Lemma parse_lines_keyed lines : forall st st',
  Forall (keyed (heap st)) (frames st) \/ st = initial ->
  parse_lines st lines = OK st' ->
  Forall (keyed (heap st')) (frames st')
  \/ (st = initial /\ Forall (fun l => is_blank l = true) lines).
Proof.
  induction lines as [|raw_line lines IH]; simpl; intros st st' Hst H.
  - injection H as <-. destruct Hst as [Hst | ->]; auto.
  - apply bind_OK in H as (st1 & H1 & H).
    destruct (is_blank raw_line) eqn:Hb.
    + rewrite blank_line_skipped in H1 by assumption. injection H1 as <-.
      destruct (IH _ _ Hst H) as [Hk | [-> Hall]]; auto.
    + left. pose proof (parse_line_keyed _ _ _ Hst H1 Hb) as Hk.
      destruct (IH _ _ (or_introl Hk) H) as [Hk' | [-> Hall]]; [assumption|].
      destruct (initial_not_keyed Hk).
Qed.

(** "Missing key for nested mapping" is raised by the first line that is
    read, when it is indented by two columns, and by no later line: once
    a line was read, every open mapping has a last key. *)
Theorem missing_key_only_at_first_line :
  (forall lines st raw_line r,
      parse_lines initial lines = OK st ->
      parse_line st raw_line = Err (MissingKeyForNested r) ->
      Forall (fun l => is_blank l = true) lines)
  /\ (forall raw_line,
        is_blank raw_line = false -> line_indent raw_line = 2 ->
        parse_line initial raw_line = Err (MissingKeyForNested raw_line)).
Proof.
  split.
  - intros lines st raw_line r Hst He.
    destruct (parse_lines_keyed _ _ _ (or_intror eq_refl) Hst)
      as [Hk | [_ Hall]]; [|assumption].
    exfalso.
    apply parse_line_errors in He as (_ & [He | [[He _] | [Hblock | Herr]]]);
      try discriminate.
    + destruct Hblock as (frame & below & Hpop & _ & He).
      apply enter_block_missing_key in He as [Hd Hnone].
      apply pop_frames_suffix in Hpop.
      rewrite Forall_forall in Hk. apply list_elem_of_In in Hpop.
      eapply keyed_not_missing; [apply (Hk _ Hpop) | |]; assumption.
    + destruct Herr as [[] | []].
  - intros raw_line Hb Hind. unfold parse_line. fold (stripped_of raw_line).
    fold (is_blank raw_line). fold (line_indent raw_line).
    rewrite Hb, Hind. reflexivity.
Qed.

Lemma missing_key_only_at_first_line_witness :
  parse_line initial "  a: 1" = Err (MissingKeyForNested "  a: 1").
Proof.
  apply (proj2 missing_key_only_at_first_line "  a: 1"); reflexivity.
Defined.

(** * The callers of the reader *)

(** ** set_config_value *)

Module ConfigSetFacts.
Import ConfigSet.

Lemma prepend_Done {E A} (xs : list A) (m : outcome E (list A)) out :
  prepend xs m = Done out -> exists ys, m = Done ys /\ out = xs ++ ys.
Proof. destruct m; simpl; [intros [= <-]; eauto | discriminate]. Qed.

Lemma split_on_not_nil ch s : split_on ch s <> [].
Proof.
  destruct s as [|c r]; simpl; [discriminate|].
  destruct (Ascii.eqb c ch); [discriminate|].
  destruct (split_on ch r); discriminate.
Qed.

Lemma strip_first_not_space s c r :
  Str.strip s = String c r -> Str.is_space c = false.
Proof.
  unfold Str.strip. intros H. apply rstrip_cons in H as (s' & Hl & _).
  clear -Hl. induction s as [|a s IH]; simpl in Hl; [discriminate|].
  destruct (Str.is_space a) eqn:E; [auto|]. now injection Hl as <- _.
Qed.

Lemma lstrip_char_keep ch c r :
  Ascii.eqb c ch = false -> Str.lstrip_char ch (String c r) = String c r.
Proof. intros H. simpl. now rewrite H. Qed.

(** The line written starts at column 0. *)
Lemma new_line_indent line value :
  skipped line = false ->
  current_indent (new_line (key_text line) value) = 0.
Proof.
  unfold skipped, key_text, current_indent, indent_of, new_line.
  intros H. apply orb_false_iff in H as [Hne _].
  destruct (Str.strip line) as [|c r] eqn:Hs; [discriminate|].
  apply strip_first_not_space in Hs.
  assert (Hc : Ascii.eqb c " " = false).
  { destruct (Ascii.eqb_spec c " ") as [->|]; [discriminate | reflexivity]. }
  simpl. destruct (Ascii.eqb c ":").
  - simpl. apply Nat.sub_diag.
  - destruct (Str.split1 ":" r) as [a b]. simpl. rewrite Hc.
    apply Nat.sub_diag.
Qed.

Lemma set_loop_Done value lines : forall indent keys out,
  set_loop indent keys value lines = Done out ->
  exists before line after k,
    lines = before ++ line :: after
    /\ out = before ++ new_line k value :: after
    /\ skipped line = false
    /\ key_text line = k /\ last keys = Some k
    /\ current_indent line = indent + 2 * (length keys - 1).
Proof.
  induction lines as [|line rest IH]; simpl; intros indent keys out H;
    [discriminate|].
  assert (Hrec : forall i ks,
             prepend [line] (set_loop i ks value rest) = Done out ->
             exists before l after k,
               line :: rest = before ++ l :: after
               /\ out = before ++ new_line k value :: after
               /\ skipped l = false /\ key_text l = k /\ last ks = Some k
               /\ current_indent l = i + 2 * (length ks - 1)).
  { intros i ks Hp. apply prepend_Done in Hp as (ys & Hys & ->).
    destruct (IH _ _ _ Hys) as (before & l & after & k & -> & -> & Hrest).
    exists (line :: before), l, after, k. auto. }
  destruct (skipped line) eqn:Hskip; [now apply Hrec|].
  destruct (Nat.eqb_spec (current_indent line) indent) as [Hi|]; [|now apply Hrec].
  destruct keys as [|k keys']; [discriminate|].
  destruct (String.eqb_spec (key_text line) k) as [Hk|]; [|now apply Hrec].
  destruct keys' as [|k' keys''].
  - injection H as <-. exists [], line, rest, k. simpl.
    rewrite Hk. repeat split; auto. lia.
  - destruct (Hrec _ _ H) as (before & l & after & k2 & Hl & Hout & Hs & Hkt & Hlast & Hind).
    exists before, l, after, k2.
    split; [exact Hl|]. split; [exact Hout|]. split; [exact Hs|].
    split; [exact Hkt|]. split; [exact Hlast|].
    rewrite Hind. cbn [length]. lia.
Qed.

(** When [set_config_value] succeeds it has rewritten one line and left
    all others as they were.  The line it replaced is not a comment, its
    key text is the last component of the key path, and it was indented
    by two columns for each earlier component; the line written in its
    place is [key: value] at column 0, whatever that indentation was. *)
Theorem set_config_value_rewrites_one_line :
  forall lines key_path value out,
    set_config_value lines key_path value = Done out ->
    exists before line after k,
      lines = before ++ line :: after
      /\ out = before ++ new_line k value :: after
      /\ skipped line = false
      /\ key_text line = k
      /\ last (split_on "." key_path) = Some k
      /\ current_indent line = 2 * (length (split_on "." key_path) - 1)
      /\ current_indent (new_line k value) = 0.
Proof.
  unfold set_config_value. intros lines key_path value out H.
  apply set_loop_Done in H as (before & line & after & k & Hl & Hout & Hs & Hk & Hlast & Hi).
  exists before, line, after, k. repeat split; auto.
  rewrite <- Hk. now apply new_line_indent.
Qed.

Lemma set_config_value_rewrites_one_line_witness :
  exists before line after k,
    ["thresholds:" ++ nl; "  pm25:" ++ nl; "    warn: 10" ++ nl]%string
    = before ++ line :: after
    /\ ["thresholds:" ++ nl; "  pm25:" ++ nl; "warn: 15" ++ nl]%string
       = before ++ new_line k "15" :: after
    /\ skipped line = false
    /\ key_text line = k
    /\ last (split_on "." "thresholds.pm25.warn") = Some k
    /\ current_indent line
       = 2 * (length (split_on "." "thresholds.pm25.warn") - 1)
    /\ current_indent (new_line k "15") = 0.
Proof.
  apply (set_config_value_rewrites_one_line
           ["thresholds:" ++ nl; "  pm25:" ++ nl; "    warn: 10" ++ nl]%string
           "thresholds.pm25.warn" "15").
  reflexivity.
Defined.

Lemma prepend_prepend {E A} (xs ys : list A) (m : outcome E (list A)) :
  prepend xs (prepend ys m) = prepend (xs ++ ys) m.
Proof. destruct m; simpl; [now rewrite app_assoc | reflexivity]. Qed.

Lemma set_loop_no_match value before : forall indent k keys' rest,
  Forall (fun l => matches indent k l = false) before ->
  set_loop indent (k :: keys') value (before ++ rest)
  = prepend before (set_loop indent (k :: keys') value rest).
Proof.
  induction before as [|l before IH]; intros indent k keys' rest H.
  - simpl. now destruct (set_loop _ _ _ _).
  - inversion H as [|? ? Hl Hb]; subst. unfold matches in Hl.
    cbn [app set_loop].
    destruct (skipped l); cbn [negb andb] in Hl.
    + rewrite (IH _ _ _ _ Hb). apply (prepend_prepend [l]).
    + destruct (current_indent l =? indent); cbn [andb] in Hl.
      * rewrite Hl, (IH _ _ _ _ Hb). apply (prepend_prepend [l]).
      * rewrite (IH _ _ _ _ Hb). apply (prepend_prepend [l]).
Qed.

Lemma set_loop_match value indent k keys' line rest :
  matches indent k line = true ->
  set_loop indent (k :: keys') value (line :: rest)
  = match keys' with
    | [] => Done (new_line (key_text line) value :: rest)
    | _ :: _ => prepend [line] (set_loop (indent + 2) keys' value rest)
    end.
Proof.
  unfold matches. intros H.
  apply andb_true_iff in H as [H Hk]. apply andb_true_iff in H as [Hs Hi].
  apply negb_true_iff in Hs. cbn [set_loop]. now rewrite Hs, Hi, Hk.
Qed.

Lemma split_on_no_sep ch s :
  Str.contains ch s = false -> split_on ch s = [s].
Proof.
  induction s as [|c s IH]; simpl; [reflexivity|].
  intros H. apply orb_false_iff in H as [-> Hs]. now rewrite (IH Hs).
Qed.

Lemma split_on_sep ch a r :
  Str.contains ch a = false ->
  split_on ch (a ++ String ch r) = a :: split_on ch r.
Proof.
  induction a as [|c a IH]; simpl.
  - now rewrite Ascii.eqb_refl.
  - intros H. apply orb_false_iff in H as [-> Ha]. now rewrite (IH Ha).
Qed.

(** The search for a component of the key path looks at indentation and
    key text only, never at the block a line belongs to.  For a path
    [a.b]: once a line [a] at column 0 is found, the line rewritten is the
    first later line indented by two columns whose key text is [b]; the
    lines between may be anything else, also lines at column 0 that begin
    the block of another key. *)
Theorem set_config_value_takes_first_match :
  forall a b value la between lb after,
    Str.contains "." a = false -> Str.contains "." b = false ->
    matches 0 a la = true ->
    Forall (fun l => matches 2 b l = false) between ->
    matches 2 b lb = true ->
    set_config_value (la :: between ++ lb :: after) (a ++ String "." b) value
    = Done (la :: between ++ new_line b value :: after).
Proof.
  intros a b value la between lb after Ha Hb Hla Hbetween Hlb.
  unfold set_config_value.
  rewrite (split_on_sep _ _ _ Ha), (split_on_no_sep _ _ Hb).
  rewrite (set_loop_match _ _ _ _ _ _ Hla). cbn [Nat.add].
  rewrite (set_loop_no_match _ _ _ _ _ _ Hbetween).
  rewrite (set_loop_match _ _ _ _ _ _ Hlb).
  unfold matches in Hlb. apply andb_true_iff in Hlb as [_ Hk].
  apply String.eqb_eq in Hk. rewrite Hk. reflexivity.
Qed.

Lemma set_config_value_takes_first_match_witness :
  set_config_value
    (("a:" ++ nl) :: [("  x: 1" ++ nl); ("c:" ++ nl)] ++ ("  b: 2" ++ nl) :: [])%string
    ("a" ++ String "." "b") "9"
  = Done ((("a:" ++ nl) :: [("  x: 1" ++ nl); ("c:" ++ nl)]
           ++ new_line "b" "9" :: []))%string.
Proof.
  apply (set_config_value_takes_first_match "a" "b" "9" ("a:" ++ nl)%string
           [("  x: 1" ++ nl); ("c:" ++ nl)]%string ("  b: 2" ++ nl)%string []);
    try reflexivity.
  repeat constructor.
Defined.

Lemma set_loop_no_IndexError value lines : forall indent k keys',
  set_loop indent (k :: keys') value lines <> Raised IndexError.
Proof.
  induction lines as [|line rest IH]; intros indent k keys'; simpl;
    [discriminate|].
  assert (Hrec : forall i k0 ks,
             prepend [line] (set_loop i (k0 :: ks) value rest)
             <> Raised IndexError).
  { intros i k0 ks H. specialize (IH i k0 ks).
    destruct (set_loop i (k0 :: ks) value rest); simpl in H;
      [discriminate | congruence]. }
  destruct (skipped line); [apply Hrec|].
  destruct (current_indent line =? indent); [|apply Hrec].
  destruct (String.eqb (key_text line) k); [|apply Hrec].
  destruct keys' as [|k' keys'']; [discriminate | apply Hrec].
Qed.

(** Between reading the file and writing it back, [set_config_value]
    raises nothing but "Key path not found" ([keys[0]] is never taken of
    an empty list), and raises it when no line that is read at column 0
    has the first component of the key path as its key text; so for a
    file without lines, and for a file of comments. *)
Theorem set_config_value_not_found :
  (forall lines key_path value e,
      set_config_value lines key_path value = Raised e ->
      e = KeyPathNotFound)
  /\ (forall lines key_path value,
        Forall (fun l => matches 0 (hd EmptyString (split_on "." key_path)) l
                         = false) lines ->
        set_config_value lines key_path value = Raised KeyPathNotFound).
Proof.
  split.
  - intros lines key_path value e H. unfold set_config_value in H.
    destruct (split_on "." key_path) as [|k keys'] eqn:E.
    + now apply split_on_not_nil in E.
    + destruct e; [reflexivity|]. now apply set_loop_no_IndexError in H.
  - intros lines key_path value H. unfold set_config_value.
    destruct (split_on "." key_path) as [|k keys'] eqn:E.
    + now apply split_on_not_nil in E.
    + simpl in H. rewrite <- (app_nil_r lines).
      now rewrite (set_loop_no_match _ _ _ _ _ _ H).
Qed.

Lemma set_config_value_not_found_witness :
  set_config_value ["# thresholds" ++ nl; "  warn: 1" ++ nl]%string "warn" "2"
  = Raised KeyPathNotFound.
Proof.
  apply (proj2 set_config_value_not_found
           ["# thresholds" ++ nl; "  warn: 1" ++ nl]%string "warn" "2").
  repeat constructor.
Defined.

End ConfigSetFacts.

(** ** normalize_device and device_endpoint *)

Module DeviceFacts.
Import Device.

Section Python.

Variable py_eq : tree -> tree -> bool.
Variable float_truth : string -> bool.

Abbreviation truthy := (Device.truthy float_truth).
Abbreviation normalize_device := (Device.normalize_device py_eq float_truth).
Abbreviation device_endpoint := (Device.device_endpoint float_truth).

Lemma find_by_hint_skip hint before : forall rest,
  Forall (other_device hint) before ->
  find_by_hint hint (before ++ rest) = find_by_hint hint rest.
Proof.
  induction before as [|x before IH]; intros rest H; [reflexivity|].
  inversion H as [|? ? (d & -> & Hn & Hh) Hb]; subst.
  cbn [app find_by_hint get_of]. rewrite Hn, Hh. now apply IH.
Qed.

Lemma find_by_hint_hit hint device rest :
  hinted_device hint device ->
  find_by_hint hint (device :: rest) = Done (Some device).
Proof.
  intros (d & -> & H). cbn [find_by_hint get_of].
  destruct H as [-> | ->]; [reflexivity | now rewrite orb_true_r].
Qed.

Lemma hint_given_Some hint :
  Str.is_empty hint = false -> hint_given (Some hint) = Some hint.
Proof. unfold hint_given. now intros ->. Qed.

(** With a hint, [normalize_device] returns the first device of the list
    whose name or hostname is the hint, whatever [default_device] says;
    when no device has it, "Device not found" is raised. *)
Theorem normalize_device_by_hint :
  (forall config hint before device after,
      Str.is_empty hint = false ->
      get "devices" config = Sequence (before ++ device :: after) ->
      Forall (other_device hint) before ->
      hinted_device hint device ->
      normalize_device config (Some hint) = Done device)
  /\ (forall config hint first rest,
        Str.is_empty hint = false ->
        get "devices" config = Sequence (first :: rest) ->
        Forall (other_device hint) (first :: rest) ->
        normalize_device config (Some hint) = Raised (DeviceNotFound hint)).
Proof.
  split.
  - intros config hint before device after Hhint Hdev Hbefore Hdevice.
    unfold Device.normalize_device. rewrite Hdev, (hint_given_Some _ Hhint).
    assert (Ht : truthy (Sequence (before ++ device :: after)) = true)
      by (simpl; now destruct before).
    rewrite Ht. cbn [negb iterate]. rewrite Ht. cbn [negb iterate].
    now rewrite (find_by_hint_skip _ _ _ Hbefore), (find_by_hint_hit _ _ _ Hdevice).
  - intros config hint first rest Hhint Hdev Hall.
    unfold Device.normalize_device. rewrite Hdev, (hint_given_Some _ Hhint).
    cbn [truthy Device.truthy negb iterate].
    rewrite <- (app_nil_r (first :: rest)).
    now rewrite (find_by_hint_skip _ _ _ Hall).
Qed.

Lemma find_by_name_skip default_name before : forall rest,
  Forall (fun x => exists d, x = Mapping d
                             /\ py_eq (get "name" d) default_name = false)
         before ->
  find_by_name py_eq default_name (before ++ rest)
  = find_by_name py_eq default_name rest.
Proof.
  induction before as [|x before IH]; intros rest H; [reflexivity|].
  inversion H as [|? ? (d & -> & Hn) Hb]; subst.
  cbn [app find_by_name get_of]. rewrite Hn. now apply IH.
Qed.

(** Without a hint, a [default_device] that names a device selects the
    first device with that name. *)
Theorem normalize_device_by_default :
  forall config device_hint before d after,
    hint_given device_hint = None ->
    get "devices" config = Sequence (before ++ Mapping d :: after) ->
    truthy (get "default_device" config) = true ->
    Forall (fun x => exists d', x = Mapping d'
                       /\ py_eq (get "name" d') (get "default_device" config)
                          = false) before ->
    py_eq (get "name" d) (get "default_device" config) = true ->
    normalize_device config device_hint = Done (Mapping d).
Proof.
  intros config device_hint before d after Hhint Hdev Hdef Hbefore Hd.
  unfold Device.normalize_device. rewrite Hdev, Hhint, Hdef.
  assert (Ht : truthy (Sequence (before ++ Mapping d :: after)) = true)
    by (simpl; now destruct before).
  rewrite Ht. cbn [negb iterate]. rewrite Ht. cbn [negb iterate].
  rewrite (find_by_name_skip _ _ _ Hbefore).
  cbn [find_by_name get_of]. now rewrite Hd.
Qed.

(** Without a hint, the first device of the list is returned when there
    is no [default_device], and also when [default_device] names no
    device: a default that matches nothing is passed over in silence. *)
Theorem normalize_device_falls_back_to_first :
  forall config device_hint first rest,
    hint_given device_hint = None ->
    get "devices" config = Sequence (first :: rest) ->
    truthy (get "default_device" config) = false
    \/ Forall (fun x => exists d, x = Mapping d
                         /\ py_eq (get "name" d) (get "default_device" config)
                            = false) (first :: rest) ->
    normalize_device config device_hint = Done first.
Proof.
  intros config device_hint first rest Hhint Hdev Hdef.
  unfold Device.normalize_device. rewrite Hdev, Hhint.
  cbn [truthy Device.truthy negb iterate first_of].
  destruct (Device.truthy float_truth (get "default_device" config)) eqn:Ht;
    [|reflexivity].
  destruct Hdef as [Hf | Hall]; [discriminate|].
  rewrite <- (app_nil_r (first :: rest)) at 1.
  now rewrite (find_by_name_skip _ _ _ Hall).
Qed.

Lemma find_by_hint_In hint items : forall device,
  find_by_hint hint items = Done (Some device) -> In device items.
Proof.
  induction items as [|x items IH]; simpl; intros device H; [discriminate|].
  destruct (get_of "name" x) as [name|]; [|discriminate].
  destruct (get_of "hostname" x) as [hostname|]; [|discriminate].
  destruct (_ || _); [injection H as <-; auto | auto].
Qed.

Lemma find_by_name_In default_name items : forall device,
  find_by_name py_eq default_name items = Done (Some device) ->
  In device items.
Proof.
  induction items as [|x items IH]; simpl; intros device H; [discriminate|].
  destruct (get_of "name" x) as [name|]; [|discriminate].
  destruct (py_eq name default_name); [injection H as <-; auto | auto].
Qed.

(** [normalize_device] raises "No devices configured" when the config has
    no [devices], or an empty or otherwise false value for it; and when
    [devices] is a list, the device it returns is one of that list. *)
Theorem normalize_device_returns_configured_device :
  (forall config device_hint,
      truthy (get "devices" config) = false ->
      normalize_device config device_hint = Raised NoDevicesConfigured)
  /\ (forall config device_hint items device,
        get "devices" config = Sequence items ->
        normalize_device config device_hint = Done device ->
        In device items).
Proof.
  split.
  - intros config device_hint H. unfold Device.normalize_device.
    rewrite H. reflexivity.
  - intros config device_hint items device Hdev.
    unfold Device.normalize_device. rewrite Hdev.
    destruct items as [|first rest]; [discriminate|].
    cbn [truthy Device.truthy negb iterate first_of].
    destruct (hint_given device_hint) as [hint|].
    + destruct (find_by_hint hint (first :: rest)) as [[d|]|] eqn:E;
        try discriminate.
      intros [= <-]. eapply find_by_hint_In, E.
    + destruct (Device.truthy float_truth (get "default_device" config)).
      * destruct (find_by_name py_eq _ (first :: rest)) as [[d|]|] eqn:E;
          try discriminate.
        -- intros [= <-]. eapply find_by_name_In, E.
        -- intros [= <-]. simpl. auto.
      * intros [= <-]. simpl. auto.
Qed.

Lemma rstrip_char_snoc ch s :
  Str.rstrip_char ch (s ++ String ch EmptyString) = Str.rstrip_char ch s.
Proof.
  induction s as [|c s IH]; simpl.
  - now rewrite Ascii.eqb_refl.
  - now rewrite IH.
Qed.

Lemma rstrip_char_last ch s :
  Str.last_char (Str.rstrip_char ch s) <> Some ch.
Proof.
  induction s as [|c s IH]; simpl; [discriminate|].
  destruct (Str.is_empty (Str.rstrip_char ch s)) eqn:E; simpl.
  - destruct (Ascii.eqb_spec c ch) as [->|Hne]; simpl; [discriminate|].
    destruct (Str.rstrip_char ch s); [congruence | discriminate].
  - destruct (Str.rstrip_char ch s); [discriminate | exact IH].
Qed.

Lemma prefix_app p s t :
  String.prefix p s = true -> String.prefix p (s ++ t) = true.
Proof.
  revert s. induction p as [|a p IH]; intros s;
    [now destruct (s ++ t)%string|].
  destruct s as [|b s]; [discriminate|].
  change (String b s ++ t)%string with (String b (s ++ t)%string).
  cbn [String.prefix]. destruct (ascii_dec a b); [apply IH | discriminate].
Qed.

Lemma has_scheme_app s t : has_scheme s = true -> has_scheme (s ++ t) = true.
Proof.
  unfold has_scheme, Str.startswith. intros H.
  apply orb_true_iff in H as [H | H]; rewrite (prefix_app _ _ t H);
    [reflexivity | apply orb_true_r].
Qed.

Lemma has_scheme_not_empty s : has_scheme s = true -> Str.is_empty s = false.
Proof. now destruct s. Qed.

(** For a hostname that begins with [http://] or [https://] the
    endpoint is the hostname without its trailing slashes, then
    [/measures/current]: what stands before the path does not end with a
    slash, and one more slash at the end of the hostname changes nothing.
    For a hostname without scheme, [http://] is put in front and nothing
    of it is removed. *)
Theorem device_endpoint_of_hostname :
  forall d s,
    get "hostname" d = String_ s -> Str.is_empty s = false ->
    (has_scheme s = true ->
     exists base,
       device_endpoint (Mapping d) = Done (base ++ "/measures/current")%string
       /\ base = Str.rstrip_char "/" s
       /\ Str.last_char base <> Some "/"%char
       /\ forall d',
            get "hostname" d' = String_ (s ++ "/") ->
            device_endpoint (Mapping d') = device_endpoint (Mapping d))
    /\ (has_scheme s = false ->
        device_endpoint (Mapping d)
        = Done ("http://" ++ s ++ "/measures/current")%string).
Proof.
  intros d s Hd Hs. unfold Device.device_endpoint. cbn [get_of].
  rewrite Hd. cbn [truthy Device.truthy]. rewrite Hs. cbn [negb]. split.
  - intros Hsch. rewrite Hsch. exists (Str.rstrip_char "/" s).
    split; [reflexivity|]. split; [reflexivity|].
    split; [apply rstrip_char_last|].
    intros d' Hd'. rewrite Hd'. cbn [truthy Device.truthy].
    rewrite (has_scheme_not_empty _ (has_scheme_app _ "/" Hsch)).
    cbn [negb]. now rewrite (has_scheme_app _ "/" Hsch), rstrip_char_snoc.
  - now intros ->.
Qed.

(** With no hostname, or a false value for it, "Device hostname missing"
    is raised; with a hostname that is neither false nor a string, such
    as a number, the [startswith] of a string is asked of it and an
    [AttributeError] is raised, which is no [ValueError]. *)
Theorem device_endpoint_without_string_hostname :
  forall d,
    (truthy (get "hostname" d) = false ->
     device_endpoint (Mapping d) = Raised HostnameMissing)
    /\ (truthy (get "hostname" d) = true ->
        (forall s, get "hostname" d <> String_ s) ->
        device_endpoint (Mapping d) = Raised AttributeError).
Proof.
  intros d. unfold Device.device_endpoint. cbn [get_of]. split.
  - now intros ->.
  - intros -> Hs. cbn [negb].
    destruct (get "hostname" d); try reflexivity. now destruct (Hs s).
Qed.

End Python.

Lemma normalize_device_by_hint_witness :
  normalize_device str_eq (fun _ => true)
    [("devices", Sequence ([kitchen] ++ office :: []));
     ("default_device", String_ "kitchen")]
    (Some "office")
  = Done office.
Proof.
  apply (proj1 (normalize_device_by_hint str_eq (fun _ => true))
           [("devices", Sequence ([kitchen] ++ office :: []));
            ("default_device", String_ "kitchen")]
           "office" [kitchen] office []); try reflexivity.
  - repeat constructor. exists [("name", String_ "kitchen");
                               ("hostname", String_ "10.0.0.5")]. auto.
  - eexists. split; [reflexivity|]. left. reflexivity.
Defined.

Lemma normalize_device_by_default_witness :
  normalize_device str_eq (fun _ => true)
    [("devices", Sequence ([kitchen] ++ office :: []));
     ("default_device", String_ "office")]
    None
  = Done office.
Proof.
  apply (normalize_device_by_default str_eq (fun _ => true)
           [("devices", Sequence ([kitchen] ++ office :: []));
            ("default_device", String_ "office")]
           None [kitchen]
           [("name", String_ "office"); ("hostname", String_ "http://office.lan/")]
           []); try reflexivity.
  repeat constructor. eexists. split; reflexivity.
Defined.

Lemma normalize_device_falls_back_to_first_witness :
  normalize_device str_eq (fun _ => true)
    [("devices", Sequence [kitchen; office]);
     ("default_device", String_ "cellar")]
    None
  = Done kitchen.
Proof.
  apply (normalize_device_falls_back_to_first str_eq (fun _ => true)
           [("devices", Sequence [kitchen; office]);
            ("default_device", String_ "cellar")]
           None kitchen [office]); try reflexivity.
  right. repeat constructor; eexists; split; reflexivity.
Defined.

Lemma normalize_device_returns_configured_device_witness :
  normalize_device str_eq (fun _ => true) [("devices", Sequence [])] None
  = Raised NoDevicesConfigured.
Proof.
  apply (proj1 (normalize_device_returns_configured_device str_eq (fun _ => true))).
  reflexivity.
Defined.

Lemma device_endpoint_of_hostname_witness :
  device_endpoint (fun _ => true) kitchen
  = Done "http://10.0.0.5/measures/current".
Proof.
  apply (proj2 (device_endpoint_of_hostname (fun _ => true)
                  [("name", String_ "kitchen"); ("hostname", String_ "10.0.0.5")]
                  "10.0.0.5" eq_refl eq_refl)).
  reflexivity.
Defined.

Lemma device_endpoint_without_string_hostname_witness :
  device_endpoint (fun _ => true) (Mapping [("hostname", Integer 12345)])
  = Raised AttributeError.
Proof.
  apply (proj2 (device_endpoint_without_string_hostname (fun _ => true)
                  [("hostname", Integer 12345)])).
  - reflexivity.
  - intros s. discriminate.
Defined.

End DeviceFacts.

(** ** print_alerts *)

Lemma severity_loop_critical alerts : forall severity,
  severity_loop severity alerts
  = if existsb is_critical alerts then 2 else severity.
Proof.
  induction alerts as [|alert rest IH]; intros severity; simpl;
    [reflexivity|].
  rewrite IH. unfold is_critical.
  destruct (Str.startswith "CRITICAL" alert); simpl; [|reflexivity].
  now destruct (existsb _ rest).
Qed.

(** The exit code of [ag alerts]: 0 without alerts, 2 as soon as one
    alert begins with CRITICAL, wherever it stands in the list, and 1
    otherwise. *)
Theorem print_alerts_code :
  forall alerts,
    (print_alerts alerts = 0 <-> alerts = [])
    /\ (print_alerts alerts = 2 <-> Exists (fun a => is_critical a = true) alerts)
    /\ (print_alerts alerts = 1
        <-> alerts <> [] /\ Forall (fun a => is_critical a = false) alerts).
Proof.
  intros alerts.
  assert (Hex : existsb is_critical alerts = true
                <-> Exists (fun a => is_critical a = true) alerts).
  { induction alerts as [|a r IH]; simpl.
    - rewrite Exists_nil. split; [discriminate | tauto].
    - rewrite Exists_cons, orb_true_iff, IH. reflexivity. }
  assert (Hall : existsb is_critical alerts = false
                 <-> Forall (fun a => is_critical a = false) alerts).
  { clear Hex. induction alerts as [|a r IH]; simpl.
    - split; [constructor | reflexivity].
    - rewrite Forall_cons, orb_false_iff, IH. reflexivity. }
  destruct alerts as [|alert rest].
  - rewrite <- Hex. simpl. split; [tauto|].
    split; (split; [discriminate|]); [discriminate | tauto].
  - unfold print_alerts. rewrite severity_loop_critical, <- Hex, <- Hall.
    destruct (existsb is_critical (alert :: rest)).
    + split; [split; discriminate|]. split; [tauto|].
      split; [discriminate | intros [_ H]; discriminate].
    + split; [split; discriminate|]. split; [split; discriminate|].
      split; [intros _; split; [discriminate | reflexivity] | reflexivity].
Qed.

Lemma print_alerts_code_witness :
  Exists (fun a => is_critical a = true) ["WARN CO2: 1200"; "CRITICAL PM2.5: 80"].
Proof.
  apply (proj1 (proj1 (proj2 (print_alerts_code
                                ["WARN CO2: 1200"; "CRITICAL PM2.5: 80"])))).
  reflexivity.
Defined.

(** ** Quoted tokens *)

Lemma last_char_snoc s c : Str.last_char (s ++ String c EmptyString) = Some c.
Proof.
  induction s as [|a s IH]; [reflexivity|].
  change (String a s ++ String c EmptyString)%string
    with (String a (s ++ String c EmptyString)%string).
  cbn [Str.last_char]. rewrite IH.
  now destruct (s ++ String c EmptyString)%string eqn:E; [destruct s|].
Qed.

Lemma drop_last_snoc s c : Str.drop_last (s ++ String c EmptyString) = s.
Proof.
  induction s as [|a s IH]; [reflexivity|].
  change (String a s ++ String c EmptyString)%string
    with (String a (s ++ String c EmptyString)%string).
  cbn [Str.drop_last]. rewrite IH.
  now destruct (s ++ String c EmptyString)%string eqn:E; [destruct s|].
Qed.

Lemma quoted_by_quoted q s : quoted_by q (quoted q s) = true.
Proof.
  unfold quoted_by, quoted. apply andb_true_iff. split.
  - unfold Str.startswith. cbn [String.prefix].
    destruct (ascii_dec q q); [|contradiction].
    now destruct (s ++ String q EmptyString)%string.
  - unfold Str.endswith_char.
    change (String q (s ++ String q EmptyString))
      with (String q s ++ String q EmptyString)%string.
    rewrite last_char_snoc. apply Ascii.eqb_refl.
Qed.

(** A token in double quotes or in single quotes is read as the string
    between the quotes, whatever that is: digits, [true] or [null] in
    quotes stay strings, and nothing inside is unescaped. *)
Theorem parse_value_quoted :
  forall s,
    parse_value (quoted Str.DQUOTE s) = OK (VStr s)
    /\ parse_value (quoted "'" s) = OK (VStr s).
Proof.
  intros s. unfold parse_value. split.
  - rewrite quoted_by_quoted. unfold quoted, Str.slice_1_m1.
    cbn [Str.drop]. now rewrite drop_last_snoc.
  - rewrite (quoted_by_quoted "'").
    replace (quoted_by Str.DQUOTE (quoted "'" s)) with false by reflexivity.
    unfold quoted, Str.slice_1_m1. cbn [Str.drop]. now rewrite drop_last_snoc.
Qed.
